(** * open_clip contrastive losses: a shallow embedding of [src/open_clip/loss.py]

    The development follows the Python module top-down: the module-level
    runtime ([has_distributed], [hvd]), [gather_features], the [ClipLoss]
    object with its label cache, and the two subclasses [CoCaLoss] and
    [DistillClipLoss].

    Tensors are shape-carrying records over an abstract scalar type, so the
    same definitions run over exact integers, over the reals and over IEEE
    binary floats.  Autograd provenance is not part of the model: a tensor is
    its device, its shape and its values.  Integer label tensors
    ([dtype=torch.long]) hold signed 64-bit integers: a scalar added to
    them must fit in [int64], and the sums wrap around. *)

From Stdlib Require Import ZArith Reals Lra Lia SpecFloat.
From stdpp Require Import gmap strings list.

(** ** Python exceptions and fallible computations *)

Inductive PyError : Type :=
  | AssertionError (msg : string)
  | UnboundLocalError (var : string)
  | IndexError
  | KeyError
  | TypeError
  | ValueError
  | RuntimeError
  | OverflowError.

Inductive Result (A : Type) : Type :=
  | Ok (a : A)
  | Raise (e : PyError).
Arguments Ok {A} a.
Arguments Raise {A} e.

Definition bind {A B : Type} (m : Result A) (k : A -> Result B) : Result B :=
  match m with
  | Ok a => k a
  | Raise e => Raise e
  end.

Declare Scope py_scope.
Delimit Scope py_scope with py.
Notation "x <~ m ;; k" := (bind m (fun x => k))
  (at level 100, m at next level, right associativity) : py_scope.
Open Scope py_scope.

(** [assert cond, msg] *)
Definition py_assert (cond : bool) (msg : string) : Result unit :=
  if cond then Ok tt else Raise (AssertionError msg).

(** [l[i] = x] on a Python list: negative indices count from the end, an
    index outside [-len, len) raises [IndexError]. *)
Definition py_setitem {A : Type} (l : list A) (i : Z) (x : A) : Result (list A) :=
  let n := Z.of_nat (length l) in
  if ((0 <=? i) && (i <? n))%Z then Ok (<[Z.to_nat i := x]> l)
  else if ((- n <=? i) && (i <? 0))%Z then Ok (<[Z.to_nat (n + i) := x]> l)
  else Raise IndexError.

(** ** Scalars

    [Arith] is what the similarity matrices need; [Analytic] adds what the
    cross-entropies need. *)

Class Arith (T : Type) : Type := {
  zero : T;
  add : T -> T -> T;
  mul : T -> T -> T;
}.

Class Analytic (T : Type) `{Arith T} : Type := {
  neg : T -> T;
  divide : T -> T -> T;
  exp_ : T -> T;
  log_ : T -> T;
  of_nat : nat -> T;
}.

(** ** Tensors *)

Definition Device := string.

(** A 2-D tensor: its device, its shape and its rows. *)
Record Tensor (T : Type) : Type := mkTensor {
  device : Device;
  shape0 : nat;
  shape1 : nat;
  rows : list (list T);
}.
Arguments mkTensor {T} device shape0 shape1 rows.
Arguments device {T} t.
Arguments shape0 {T} t.
Arguments shape1 {T} t.
Arguments rows {T} t.

(** The rows agree with the declared shape. *)
Definition wf_rows {T : Type} (n d : nat) (rs : list (list T)) : Prop :=
  length rs = n /\ Forall (fun r => length r = d) rs.

Definition wf {T : Type} (t : Tensor T) : Prop :=
  wf_rows (shape0 t) (shape1 t) (rows t).

(** A 3-D tensor, as the token logits of the captioning head. *)
Record Tensor3 (T : Type) : Type := mkTensor3 {
  shape3_0 : nat;
  shape3_1 : nat;
  shape3_2 : nat;
  planes : list (list (list T));
}.
Arguments mkTensor3 {T} shape3_0 shape3_1 shape3_2 planes.
Arguments shape3_0 {T} t.
Arguments shape3_1 {T} t.
Arguments shape3_2 {T} t.
Arguments planes {T} t.


(** A 2-D integer tensor, as the token labels of the captioning head. *)
Record LongTensor2 : Type := mkLong2 {
  lshape0 : nat;
  lshape1 : nat;
  lrows : list (list Z);
}.

Section TorchOps.
Context {T : Type} `{ArithT : Arith T}.

(** Column [j] of a list of rows. *)
Definition column (j : nat) (rs : list (list T)) : list T :=
  map (fun r => nth j r zero) rs.

Definition transpose_rows (d : nat) (rs : list (list T)) : list (list T) :=
  map (fun j => column j rs) (seq 0 d).

(** [t.T] *)
Definition transpose (t : Tensor T) : Tensor T :=
  mkTensor (device t) (shape1 t) (shape0 t) (transpose_rows (shape1 t) (rows t)).

(** [torch.zeros_like(t)] *)
Definition zeros_like (t : Tensor T) : Tensor T :=
  mkTensor (device t) (shape0 t) (shape1 t)
           (replicate (shape0 t) (replicate (shape1 t) zero)).

(** [s * t] for a scalar [s]; [None * t] is a [TypeError]. *)
Definition scale (s : option T) (t : Tensor T) : Result (Tensor T) :=
  match s with
  | None => Raise TypeError
  | Some c =>
      Ok (mkTensor (device t) (shape0 t) (shape1 t) (map (map (mul c)) (rows t)))
  end.

(** Inner product, accumulated left to right from zero. *)
Definition dot (x y : list T) : T :=
  fold_left add (zip_with mul x y) zero.

(** [a @ b]: both operands on one device, inner dimensions equal *)
Definition matmul (a b : Tensor T) : Result (Tensor T) :=
  if negb (String.eqb (device a) (device b)) then Raise RuntimeError
  else if Nat.eqb (shape1 a) (shape0 b) then
    Ok (mkTensor (device a) (shape0 a) (shape1 b)
          (map (fun r => map (fun j => dot r (column j (rows b))) (seq 0 (shape1 b)))
               (rows a)))
  else Raise RuntimeError.

(** [torch.cat(ts, dim=0)]: the list must be non-empty and the tensors
    must be on one device and agree on the other dimension. *)
Definition cat (ts : list (Tensor T)) : Result (Tensor T) :=
  match ts with
  | [] => Raise RuntimeError
  | t0 :: _ =>
      if forallb (fun t => String.eqb (device t) (device t0)
                           && Nat.eqb (shape1 t) (shape1 t0)) ts then
        Ok (mkTensor (device t0) (sum_list (map shape0 ts)) (shape1 t0)
              (concat (map rows ts)))
      else Raise RuntimeError
  end.

(** [k] consecutive pieces of [size] rows (the last one may be shorter). *)
Fixpoint split_rows (k size : nat) (rs : list (list T)) : list (list (list T)) :=
  match k with
  | O => []
  | S k' => take size rs :: split_rows k' size (drop size rs)
  end.

(** [t.chunk(chunks, dim=0)]: pieces of [ceil(n / chunks)] rows; a tensor
    without rows yields [chunks] empty pieces. *)
Definition chunk (t : Tensor T) (chunks : Z) : Result (list (Tensor T)) :=
  if (chunks <=? 0)%Z then Raise RuntimeError
  else
    let c := Z.to_nat chunks in
    let n := shape0 t in
    let split_size := (n + c - 1) / c in
    if Nat.eqb split_size 0 then
      Ok (replicate c (mkTensor (device t) 0 (shape1 t) []))
    else
      let k := (n + split_size - 1) / split_size in
      Ok (map (fun rs => mkTensor (device t) (length rs) (shape1 t) rs)
              (split_rows k split_size (rows t))).

(** [t.permute(0, 2, 1)] *)
Definition permute_021 (t : Tensor3 T) : Tensor3 T :=
  mkTensor3 (shape3_0 t) (shape3_2 t) (shape3_1 t)
            (map (transpose_rows (shape3_2 t)) (planes t)).

(** Row block [r] of a tensor cut in blocks of [b] rows. *)
Definition row_block (b r : nat) (t : Tensor T) : list (list T) :=
  take b (drop (r * b) (rows t)).
End TorchOps.

(** ** The module-level runtime

    [has_distributed] and [hvd] are the module globals set by the two
    [try: import] blocks.  The collectives are external: what they return
    depends on what the other workers pass, so they are fields of the
    runtime the worker runs in. *)

Record Horovod (T : Type) : Type := mkHorovod {
  (** [hvd.allgather(x)]: one tensor, the workers' inputs concatenated *)
  hvd_allgather : Tensor T -> Result (Tensor T);
}.
Arguments mkHorovod {T} hvd_allgather.
Arguments hvd_allgather {T} h x.

Record Runtime (T : Type) : Type := mkRuntime {
  has_distributed : bool;
  (** [torch.distributed.nn.all_gather(x)]: a tuple of tensors *)
  nn_all_gather : Tensor T -> Result (list (Tensor T));
  (** [dist.all_gather(out, x)]: the contents of [out] after the call *)
  dist_all_gather : list (Tensor T) -> Tensor T -> Result (list (Tensor T));
  hvd : option (Horovod T);
}.
Arguments mkRuntime {T} has_distributed nn_all_gather dist_all_gather hvd.
Arguments has_distributed {T} r.
Arguments nn_all_gather {T} r x.
Arguments dist_all_gather {T} r out x.
Arguments hvd {T} r.

Definition msg_no_distributed : string :=
  "torch.distributed did not import correctly, please use a PyTorch version with support.".
Definition msg_no_horovod : string := "Please install horovod".

Section GatherFeatures.
Context {T : Type} `{ArithT : Arith T}.
Variable rt : Runtime T.

Definition gather_features (features_a features_b : Tensor T)
    (local_loss gather_with_grad : bool) (rank world_size : Z)
    (use_horovod : bool) : Result (Tensor T * Tensor T) :=
  _ <~ py_assert (has_distributed rt) msg_no_distributed ;;
  if use_horovod then
    match hvd rt with
    | None => Raise (AssertionError msg_no_horovod)
    | Some h =>
        if gather_with_grad then
          all_features_a <~ hvd_allgather h features_a ;;
          all_features_b <~ hvd_allgather h features_b ;;
          Ok (all_features_a, all_features_b)
        else
          all_features_a <~ hvd_allgather h features_a ;;
          all_features_b <~ hvd_allgather h features_b ;;
          if negb local_loss then
            gathered_features_a <~ chunk all_features_a world_size ;;
            gathered_features_b <~ chunk all_features_b world_size ;;
            gathered_features_a <~ py_setitem gathered_features_a rank features_a ;;
            gathered_features_b <~ py_setitem gathered_features_b rank features_b ;;
            all_features_a <~ cat gathered_features_a ;;
            all_features_b <~ cat gathered_features_b ;;
            Ok (all_features_a, all_features_b)
          else Ok (all_features_a, all_features_b)
    end
  else
    if gather_with_grad then
      gathered_a <~ nn_all_gather rt features_a ;;
      all_features_a <~ cat gathered_a ;;
      gathered_b <~ nn_all_gather rt features_b ;;
      all_features_b <~ cat gathered_b ;;
      Ok (all_features_a, all_features_b)
    else
      let gathered_features_a :=
        replicate (Z.to_nat world_size) (zeros_like features_a) in
      let gathered_features_b :=
        replicate (Z.to_nat world_size) (zeros_like features_b) in
      gathered_features_a <~ dist_all_gather rt gathered_features_a features_a ;;
      gathered_features_b <~ dist_all_gather rt gathered_features_b features_b ;;
      gathered <~
        (if negb local_loss then
           ga <~ py_setitem gathered_features_a rank features_a ;;
           gb <~ py_setitem gathered_features_b rank features_b ;;
           Ok (ga, gb)
         else Ok (gathered_features_a, gathered_features_b)) ;;
      all_features_a <~ cat (fst gathered) ;;
      all_features_b <~ cat (snd gathered) ;;
      Ok (all_features_a, all_features_b).
End GatherFeatures.

(** ** ClipLoss *)

(** A label tensor: [tid] is the identity of the Python object, so that the
    cache returning the very same object can be told from an equal copy. *)
Record LabelTensor : Type := mkLabels {
  tid : nat;
  ldevice : Device;
  values : list Z;
}.

Record ClipLoss : Type := mkClipLoss {
  local_loss : bool;
  gather_with_grad : bool;
  cache_labels : bool;
  rank : Z;
  world_size : Z;
  use_horovod : bool;
  (* cache state *)
  prev_num_logits : nat;
  labels : gmap Device LabelTensor;
}.

(** [ClipLoss.__init__] *)
Definition ClipLoss_init (local_loss gather_with_grad cache_labels : bool)
    (rank world_size : Z) (use_horovod : bool) : ClipLoss :=
  mkClipLoss local_loss gather_with_grad cache_labels rank world_size use_horovod
             0 ∅.

(** The state a method runs in: the object, and the number of label tensors
    allocated so far (the next fresh identity). *)
Record State : Type := mkState {
  self : ClipLoss;
  next_tid : nat;
}.

Definition set_cache (s : ClipLoss) (dev : Device) (l : LabelTensor) (n : nat) : ClipLoss :=
  mkClipLoss (local_loss s) (gather_with_grad s) (cache_labels s) (rank s)
             (world_size s) (use_horovod s) n (<[dev := l]> (labels s)).

(** [torch.long] is a signed 64-bit integer: a Python [int] passed where a
    [long] scalar is expected must fit, and arithmetic on [long] tensors
    wraps around. *)
Definition int64_fits (k : Z) : bool := ((- 2 ^ 63 <=? k) && (k <? 2 ^ 63))%Z.

Definition int64_wrap (z : Z) : Z := ((z + 2 ^ 63) mod 2 ^ 64 - 2 ^ 63)%Z.

(** [torch.arange(n, device=device, dtype=torch.long)]: a new tensor.  [n]
    is the row count of a tensor, which torch keeps in an [int64] itself. *)
Definition arange (st : State) (dev : Device) (n : nat) : LabelTensor * State :=
  (mkLabels (next_tid st) dev (map Z.of_nat (seq 0 n)),
   mkState (self st) (S (next_tid st))).

(** [labels + k] for a Python [int] [k]: a new tensor; a [k] outside
    [int64] is refused with [OverflowError], and the sums wrap. *)
Definition add_scalar (st : State) (l : LabelTensor) (k : Z)
    : Result LabelTensor * State :=
  if int64_fits k then
    (Ok (mkLabels (next_tid st) (ldevice l)
                  (map (fun v => int64_wrap (v + k)) (values l))),
     mkState (self st) (S (next_tid st)))
  else (Raise OverflowError, st).

Definition get_ground_truth (st : State) (dev : Device) (num_logits : nat)
    : Result LabelTensor * State :=
  let s := self st in
  if negb (Nat.eqb (prev_num_logits s) num_logits)
     || negb (bool_decide (dev ∈ dom (labels s))) then
    let '(lbl, st1) := arange st dev num_logits in
    let '(shifted, st2) :=
      if (1 <? world_size s)%Z && local_loss s
      then add_scalar st1 lbl (Z.of_nat num_logits * rank s)
      else (Ok lbl, st1) in
    match shifted with
    | Ok lbl =>
        let st3 :=
          if cache_labels s
          then mkState (set_cache (self st2) dev lbl num_logits) (next_tid st2)
          else st2 in
        (Ok lbl, st3)
    | Raise e => (Raise e, st2)
    end
  else
    match labels s !! dev with
    | Some lbl => (Ok lbl, st)
    | None => (Raise KeyError, st)
    end.

Section Logits.
Context {T : Type} `{ArithT : Arith T}.
Variable rt : Runtime T.

Definition get_logits (s : ClipLoss) (features_a features_b : Tensor T)
    (logit_scale : option T) : Result (Tensor T * Tensor T) :=
  if (1 <? world_size s)%Z then
    all_features <~ gather_features rt features_a features_b
      (local_loss s) (gather_with_grad s) (rank s) (world_size s) (use_horovod s) ;;
    let all_features_a := fst all_features in
    let all_features_b := snd all_features in
    if local_loss s then
      sa <~ scale logit_scale features_a ;;
      logits_per_feature_a <~ matmul sa (transpose all_features_b) ;;
      sb <~ scale logit_scale features_b ;;
      logits_per_feature_b <~ matmul sb (transpose all_features_a) ;;
      Ok (logits_per_feature_a, logits_per_feature_b)
    else
      sa <~ scale logit_scale all_features_a ;;
      logits_per_feature_a <~ matmul sa (transpose all_features_b) ;;
      Ok (logits_per_feature_a, transpose logits_per_feature_a)
  else
    sa <~ scale logit_scale features_a ;;
    logits_per_feature_a <~ matmul sa (transpose features_b) ;;
    sb <~ scale logit_scale features_b ;;
    logits_per_feature_b <~ matmul sb (transpose features_a) ;;
    Ok (logits_per_feature_a, logits_per_feature_b).
End Logits.

(** ** Stateful computations: the object may change, an exception may escape *)

Definition Comp (A : Type) : Type := State -> Result A * State.

Definition cret {A : Type} (a : A) : Comp A := fun st => (Ok a, st).

Definition cbind {A B : Type} (m : Comp A) (k : A -> Comp B) : Comp B :=
  fun st =>
    match m st with
    | (Ok a, st') => k a st'
    | (Raise e, st') => (Raise e, st')
    end.

(** A computation that does not touch the object. *)
Definition lift {A : Type} (r : Result A) : Comp A := fun st => (r, st).

(** A computation that reads the object. *)
Definition reading {A : Type} (f : ClipLoss -> Result A) : Comp A :=
  fun st => (f (self st), st).

Notation "x <<~ m ;; k" := (cbind m (fun x => k))
  (at level 100, m at next level, right associativity) : py_scope.

(** Reading a local variable that no branch has assigned. *)
Definition read_local {A : Type} (var : string) (v : option A) : Result A :=
  match v with
  | Some a => Ok a
  | None => Raise (UnboundLocalError var)
  end.

(** What [forward] hands back: a bare scalar, a bare pair, or a dict. *)
Inductive Output (T : Type) : Type :=
  | Scalar (x : T)
  | Pair (x y : T)
  | Dict (d : gmap string T).
Arguments Scalar {T} x.
Arguments Pair {T} x y.
Arguments Dict {T} d.

(** The default [ignore_index] of [F.cross_entropy]. *)
Definition default_ignore_index : Z := (-100)%Z.

Section Losses.
Context {T : Type} `{AnalyticT : Analytic T}.
Variable rt : Runtime T.

(** [x.sum()], accumulated left to right from zero. *)
Definition tsum (xs : list T) : T := fold_left add xs zero.

(** [x.mean()] *)
Definition tmean (xs : list T) : T := divide (tsum xs) (of_nat (length xs)).

Definition softmax (x : list T) : list T :=
  let e := map exp_ x in
  map (fun v => divide v (tsum e)) e.

Definition log_softmax (x : list T) : list T := map log_ (softmax x).

(** The per-position terms of a cross-entropy: a position whose target is
    [ignore_index] is skipped, any other target must name a class. *)
Fixpoint nll_terms (ignore_index : Z) (items : list (list T * Z)) : Result (list T) :=
  match items with
  | [] => Ok []
  | (x, y) :: rest =>
      if (y =? ignore_index)%Z then nll_terms ignore_index rest
      else if ((0 <=? y) && (y <? Z.of_nat (length x)))%Z then
        ts <~ nll_terms ignore_index rest ;;
        Ok (neg (nth (Z.to_nat y) (log_softmax x) zero) :: ts)
      else Raise IndexError
  end.

(** Mean reduction: over the positions that were not ignored. *)
Definition nll_mean (ignore_index : Z) (items : list (list T * Z)) : Result T :=
  ts <~ nll_terms ignore_index items ;;
  Ok (tmean ts).

(** [F.cross_entropy(input, target)] for an [(N, C)] input and [N] class
    indices. *)
Definition cross_entropy (ignore_index : Z) (input : Tensor T) (target : list Z)
    : Result T :=
  if Nat.eqb (shape0 input) (length target)
  then nll_mean ignore_index (zip (rows input) target)
  else Raise ValueError.

(** The same for an [(N, C, L)] input and an [(N, L)] target: position
    [(n, l)] scores the class vector [input[n, :, l]]. *)
Definition cross_entropy_seq (ignore_index : Z) (input : Tensor3 T)
    (target : LongTensor2) : Result T :=
  if Nat.eqb (shape3_0 input) (lshape0 target)
     && Nat.eqb (shape3_2 input) (lshape1 target)
  then nll_mean ignore_index
         (concat (zip_with (fun plane tgt => zip (transpose_rows (shape3_2 input) plane) tgt)
                           (planes input) (lrows target)))
  else Raise ValueError.

(** *** ClipLoss.forward *)

Definition ClipLoss_forward (image_features text_features : option (Tensor T))
    (logit_scale : option T) (text_a_features text_b_features : option (Tensor T))
    (output_dict : bool) : Comp (Output T) :=
  let features :=
    match image_features, text_features with
    | Some a, Some b => Some (a, b)
    | _, _ =>
        match text_a_features, text_b_features with
        | Some a, Some b => Some (a, b)
        | _, _ => None
        end
    end in
  features <<~ lift (read_local "features_a" features) ;;
  let features_a := fst features in
  let features_b := snd features in
  let device := device features_a in
  logits <<~ reading (fun s => get_logits rt s features_a features_b logit_scale) ;;
  let logits_per_feature_a := fst logits in
  let logits_per_feature_b := snd logits in
  labels <<~ (fun st => get_ground_truth st device (shape0 logits_per_feature_a)) ;;
  ce_a <<~ lift (cross_entropy default_ignore_index logits_per_feature_a (values labels)) ;;
  ce_b <<~ lift (cross_entropy default_ignore_index logits_per_feature_b (values labels)) ;;
  let total_loss := divide (add ce_a ce_b) (of_nat 2) in
  cret (if output_dict then Dict {[ "contrastive_loss" := total_loss ]}
        else Scalar total_loss).

(** *** CoCaLoss *)

(** The attributes [CoCaLoss.__init__] adds to those of [ClipLoss];
    [caption_loss] is the [ignore_index] of the [nn.CrossEntropyLoss]
    module stored there. *)
Record CoCaLoss : Type := mkCoCaLoss {
  clip_loss_weight : T;
  caption_loss_weight : T;
  caption_loss : Z;
}.

Definition CoCaLoss_init (caption_loss_weight clip_loss_weight : T) (pad_id : Z)
    (local_loss gather_with_grad cache_labels : bool) (rank world_size : Z)
    (use_horovod : bool) : CoCaLoss * ClipLoss :=
  (mkCoCaLoss clip_loss_weight caption_loss_weight pad_id,
   ClipLoss_init local_loss gather_with_grad cache_labels rank world_size use_horovod).

Definition CoCaLoss_forward (this : CoCaLoss)
    (image_features text_features : option (Tensor T))
    (logits : Tensor3 T) (labels : LongTensor2) (logit_scale : option T)
    (output_dict : bool) : Comp (Output T) :=
  out <<~ ClipLoss_forward image_features text_features logit_scale None None false ;;
  clip_loss <<~ lift (match out with
                      | Scalar x => Ok (mul (clip_loss_weight this) x)
                      | _ => Raise TypeError
                      end) ;;
  caption <<~ lift (cross_entropy_seq (caption_loss this) (permute_021 logits) labels) ;;
  let caption_loss := mul caption (caption_loss_weight this) in
  if output_dict then
    cret (Dict (<[ "caption_loss" := caption_loss ]> {[ "contrastive_loss" := clip_loss ]}))
  else cret (Pair clip_loss caption_loss).

(** *** DistillClipLoss *)

(** Broadcasting of one dimension. *)
Definition broadcast_dim (a b : nat) : option nat :=
  if Nat.eqb a b then Some a
  else if Nat.eqb a 1 then Some b
  else if Nat.eqb b 1 then Some a
  else None.

Definition expand_list {A : Type} (from to : nat) (l : list A) : list A :=
  if Nat.eqb from to then l
  else match l with
       | x :: _ => replicate to x
       | [] => []
       end.

Definition expand (n d : nat) (t : Tensor T) : list (list T) :=
  expand_list (shape0 t) n (map (expand_list (shape1 t) d) (rows t)).

(** [a * b], elementwise with broadcasting, both operands on one device *)
Definition mul_tensors (a b : Tensor T) : Result (Tensor T) :=
  if negb (String.eqb (device a) (device b)) then Raise RuntimeError
  else
    match broadcast_dim (shape0 a) (shape0 b), broadcast_dim (shape1 a) (shape1 b) with
    | Some n, Some d =>
        Ok (mkTensor (device a) n d
              (zip_with (zip_with mul) (expand n d a) (expand n d b)))
    | _, _ => Raise RuntimeError
    end.

Definition map_rows (f : list T -> list T) (t : Tensor T) : Tensor T :=
  mkTensor (device t) (shape0 t) (shape1 t) (map f (rows t)).

Definition dist_loss (teacher_logits student_logits : Tensor T) : Result T :=
  prod <~ mul_tensors (map_rows softmax teacher_logits)
                      (map_rows log_softmax student_logits) ;;
  Ok (neg (tmean (map tsum (rows prod)))).

Definition DistillClipLoss_forward (image_features text_features : Tensor T)
    (logit_scale : option T) (dist_image_features dist_text_features : Tensor T)
    (dist_logit_scale : option T) (output_dict : bool) : Comp (Output T) :=
  logits <<~ reading (fun s => get_logits rt s image_features text_features logit_scale) ;;
  let logits_per_image := fst logits in
  let logits_per_text := snd logits in
  dist_logits <<~ reading (fun s =>
    get_logits rt s dist_image_features dist_text_features dist_logit_scale) ;;
  let dist_logits_per_image := fst dist_logits in
  let dist_logits_per_text := snd dist_logits in
  labels <<~ (fun st => get_ground_truth st (device image_features)
                                         (shape0 logits_per_image)) ;;
  ce_i <<~ lift (cross_entropy default_ignore_index logits_per_image (values labels)) ;;
  ce_t <<~ lift (cross_entropy default_ignore_index logits_per_text (values labels)) ;;
  let contrastive_loss := divide (add ce_i ce_t) (of_nat 2) in
  d_i <<~ lift (dist_loss dist_logits_per_image logits_per_image) ;;
  d_t <<~ lift (dist_loss dist_logits_per_text logits_per_text) ;;
  let distill_loss := divide (add d_i d_t) (of_nat 2) in
  if output_dict then
    cret (Dict (<[ "distill_loss" := distill_loss ]>
                  {[ "contrastive_loss" := contrastive_loss ]}))
  else cret (Pair contrastive_loss distill_loss).
End Losses.

(** ** Scalar instances *)

(** Exact integers. *)
#[export] Instance Z_arith : Arith Z :=
  {| zero := 0%Z; add := Z.add; mul := Z.mul |}.

(** Real numbers: the arithmetic the losses are specified in. *)
#[export] Instance R_arith : Arith R :=
  {| zero := 0%R; add := Rplus; mul := Rmult |}.

#[export] Instance R_analytic : Analytic R :=
  {| neg := Ropp; divide := Rdiv; exp_ := exp; log_ := ln; of_nat := INR |}.

(** IEEE 754 binary floats, round to nearest even; [binary32] is the default
    [torch.float32]. *)
Definition float_arith (prec emax : Z) : Arith spec_float :=
  {| zero := S754_zero false; add := SFadd prec emax; mul := SFmul prec emax |}.

Definition binary32 : Arith spec_float := float_arith 24 128.
Definition binary64 : Arith spec_float := float_arith 53 1024.

(** ** Concrete runtimes *)

(** A worker whose collectives deliver [world x], the inputs of all workers
    in rank order, when it passes [x] itself. *)
Definition sim_runtime {T : Type} `{Arith T} (torch_dist horovod : bool)
    (world : Tensor T -> list (Tensor T)) : Runtime T :=
  mkRuntime torch_dist
    (fun x => Ok (world x))
    (fun out x =>
       if Nat.eqb (length out) (length (world x)) then Ok (world x)
       else Raise RuntimeError)
    (if horovod then Some (mkHorovod (fun x => cat (world x))) else None).

(** A single process: the group is the worker alone. *)
Definition alone {T : Type} (x : Tensor T) : list (Tensor T) := [x].

(** Two workers, seen from rank 0: the peer holds the successors. *)
Definition two_workers (x : Tensor Z) : list (Tensor Z) :=
  [x; mkTensor (device x) (shape0 x) (shape1 x) (map (map Z.succ) (rows x))].

(** ** Sequences of label requests *)

(** The object after a sequence of [get_ground_truth] calls. *)
Fixpoint run_requests (st : State) (calls : list (Device * nat)) : State :=
  match calls with
  | [] => st
  | (dev, n) :: rest => run_requests (snd (get_ground_truth st dev n)) rest
  end.

(** What the calls returned, in order. *)
Fixpoint answers (st : State) (calls : list (Device * nat))
    : list (Result LabelTensor) :=
  match calls with
  | [] => []
  | (dev, n) :: rest =>
      fst (get_ground_truth st dev n) :: answers (snd (get_ground_truth st dev n)) rest
  end.

(** A training step: every device in use requests labels for the same
    [num_logits]. *)
Definition step_requests (step : list Device * nat) : list (Device * nat) :=
  map (fun dev => (dev, snd step)) (fst step).

(** The labels the specification asks for: [arange(n) + rank * n] under
    local loss, [arange(n)] otherwise. *)
Definition spec_labels (local : bool) (rank : Z) (n : nat) : list Z :=
  if local then map (fun i => (Z.of_nat i + rank * Z.of_nat n)%Z) (seq 0 n)
  else map Z.of_nat (seq 0 n).

(** A freshly constructed object in a process that has allocated [k] label
    tensors. *)
Definition fresh (s : ClipLoss) (k : nat) : State := mkState s k.

(** ** Assertions *)

(** The result is an escaped [AssertionError]. *)
Definition asserts {A : Type} (r : Result A) : Prop :=
  exists msg, r = Raise (AssertionError msg).

(** The collectives of the runtime do not themselves fail an assertion. *)
Definition collectives_do_not_assert {T : Type} (rt : Runtime T) : Prop :=
  (forall x, ~ asserts (nn_all_gather rt x)) /\
  (forall out x, ~ asserts (dist_all_gather rt out x)) /\
  (forall h x, hvd rt = Some h -> ~ asserts (hvd_allgather h x)).

(** ** The [output_dict] protocol *)

(** [dict] is the outcome with [output_dict=True] of the call whose outcome
    with [output_dict=False] is [bare]: the same state and the same
    exception if any; otherwise [bare] is a scalar (one key) or a pair (two
    keys) and [dict] maps exactly [keys] to the same values. *)
Definition honours_output_dict {T : Type} (keys : list string)
    (bare dict : Result (Output T) * State) : Prop :=
  snd dict = snd bare /\
  match fst bare with
  | Raise e => fst dict = Raise e
  | Ok o =>
      exists d : gmap string T, fst dict = Ok (Dict d) /\
        match o, keys with
        | Scalar x, [k] => dom d = {[ k ]} /\ d !! k = Some x
        | Pair x y, [k1; k2] =>
            dom d = {[ k1; k2 ]} /\ d !! k1 = Some x /\ d !! k2 = Some y
        | _, _ => False
        end
  end.

(** ** The label cache *)

(** Whether [get_ground_truth] applies the rank offset. *)
Definition offsets (s : ClipLoss) : bool := (1 <? world_size s)%Z && local_loss s.

(** The offset [num_logits * rank] is a [long] scalar, where it is applied. *)
Definition labels_fit (s : ClipLoss) (n : nat) : bool :=
  negb (offsets s) || int64_fits (Z.of_nat n * rank s).

(** The values [get_ground_truth] computes when it does compute. *)
Definition computed_values (s : ClipLoss) (n : nat) : list Z :=
  if offsets s
  then map (fun v => int64_wrap (v + Z.of_nat n * rank s)) (map Z.of_nat (seq 0 n))
  else map Z.of_nat (seq 0 n).

(** The construction-time configuration. *)
Definition config (s : ClipLoss) : bool * bool * bool * Z * Z * bool :=
  (local_loss s, gather_with_grad s, cache_labels s, rank s, world_size s, use_horovod s).

(** A request was answered with labels of the requested length. *)
Definition right_length (c : Device * nat) (r : Result LabelTensor) : Prop :=
  exists l, r = Ok l /\ length (values l) = snd c.

(** ** The process group *)

(** The collectives deliver the inputs of all workers in ascending rank
    order: [world] lists what each rank passes, and [x] is what this worker
    passes. *)
Definition rank_ordered {T : Type} `{Arith T} (rt : Runtime T) (x : Tensor T)
    (world : list (Tensor T)) : Prop :=
  nn_all_gather rt x = Ok world /\
  (forall out, length out = length world -> dist_all_gather rt out x = Ok world) /\
  (forall h, hvd rt = Some h -> hvd_allgather h x = cat world).

(** All workers pass well-formed batches of shape [(b, d)]; the collective
    delivers them on the device [dev] of the receiving worker. *)
Definition same_shape {T : Type} (dev : Device) (b d : nat)
    (world : list (Tensor T)) : Prop :=
  Forall (fun t => wf t /\ device t = dev /\ shape0 t = b /\ shape1 t = d) world.

(** ** Exact arithmetic *)

(** Multiplication is commutative and associative, as over the integers or
    the reals (and unlike rounded floating-point multiplication). *)
Definition exact_mul (T : Type) `{Arith T} : Prop :=
  (forall x y : T, mul x y = mul y x) /\
  (forall x y z : T, mul (mul x y) z = mul x (mul y z)).

(** [float32] constants: [m * 2^e] with a 24-bit significand. *)
Definition f32_100 : spec_float := S754_finite false 13107200 (-17).
Definition f32_0_1 : spec_float := S754_finite false 13421773 (-27).
Definition f32_0_3 : spec_float := S754_finite false 10066330 (-25).
Definition f32_3 : spec_float := S754_finite false 12582912 (-22).
Definition f32_3_next : spec_float := S754_finite false 12582913 (-22).

(** ** The symmetric loss of the specification *)

(** The feature pair [forward] works on: (image, text) if both are given,
    else (text_a, text_b) if both are given. *)
Definition selected_pair {T : Type}
    (image_features text_features text_a_features text_b_features : option (Tensor T))
    (features_a features_b : Tensor T) : Prop :=
  (image_features = Some features_a /\ text_features = Some features_b) \/
  ((image_features = None \/ text_features = None) /\
   text_a_features = Some features_a /\ text_b_features = Some features_b).

(** The arithmetic mean of two values. *)
Definition mean2 {T : Type} `{Analytic T} (x y : T) : T :=
  divide (add x y) (of_nat 2).

(** A loss value as returned under the [output_dict] flag. *)
Definition returned {T : Type} (output_dict : bool) (loss : T) : Output T :=
  if output_dict then Dict {[ "contrastive_loss" := loss ]} else Scalar loss.

(** ** Padding *)



(** ** Distillation over the reals *)

(** The sum of a list of reals. *)
Definition sumR (l : list R) : R := fold_right Rplus 0%R l.

(** The entropy of a distribution: minus the sum of [p * ln p]. *)
Definition entropy (p : list R) : R := (- sumR (map (fun x => x * ln x) p))%R.

(** The negative entropy: the sum of [p * ln p]. *)
Definition negative_entropy (p : list R) : R := (- entropy p)%R.

(** Minus the sum over classes of teacher probability times student
    log-probability. *)
Definition soft_cross_entropy (teacher student : list R) : R :=
  (- sumR (zip_with Rmult (softmax teacher) (log_softmax student)))%R.

(** The mean of the values in a list. *)
Definition meanR (l : list R) : R := (sumR l / INR (length l))%R.

(** A distribution that puts all its mass on one class. *)
Definition one_hot (p : list R) : Prop :=
  exists i, p !! i = Some 1%R /\
            forall j x, j <> i -> p !! j = Some x -> x = 0%R.

(** ** Reconfiguration *)

(** The same object constructed with another [rank]. *)
Definition with_rank (s : ClipLoss) (r : Z) : ClipLoss :=
  mkClipLoss (local_loss s) (gather_with_grad s) (cache_labels s) r
             (world_size s) (use_horovod s) (prev_num_logits s) (labels s).

(** The same object constructed with another [local_loss]. *)
Definition with_local_loss (s : ClipLoss) (ll : bool) : ClipLoss :=
  mkClipLoss ll (gather_with_grad s) (cache_labels s) (rank s)
             (world_size s) (use_horovod s) (prev_num_logits s) (labels s).

(** ** Similarity matrices *)

(** [c * x @ y.T] *)
Definition similarity {T : Type} `{Arith T} (c : T) (x y : Tensor T)
    : Result (Tensor T) :=
  sa <~ scale (Some c) x ;; matmul sa (transpose y).

(** ** What a computation may change *)

(** The computation leaves the configuration alone, and the whole object
    when caching is off, whether it returns or raises. *)
Definition keeps_object {A : Type} (m : Comp A) : Prop :=
  forall st,
    config (self (snd (m st))) = config (self st) /\
    (cache_labels (self st) = false -> self (snd (m st)) = self st).

(** A request made to the object [s] was answered with labels on the
    requested device, or refused with [OverflowError] because the offset is
    no [long] scalar. *)
Definition right_device (s : ClipLoss) (c : Device * nat) (r : Result LabelTensor)
    : Prop :=
  (exists l, r = Ok l /\ ldevice l = fst c) \/
  (r = Raise OverflowError /\ labels_fit s (snd c) = false).

(** * Properties *)

(** ** The error monad *)

Lemma bind_Ok {A B : Type} (m : Result A) (k : A -> Result B) (b : B) :
  bind m k = Ok b -> exists a, m = Ok a /\ k a = Ok b.
Proof. destruct m as [a|e]; simpl; [eauto | discriminate]. Qed.

Lemma bind_Raise {A B : Type} (m : Result A) (k : A -> Result B) (e : PyError) :
  bind m k = Raise e -> m = Raise e \/ exists a, m = Ok a /\ k a = Raise e.
Proof. destruct m as [a|e']; simpl; [eauto | intros [= ->]; eauto]. Qed.

Lemma py_setitem_in_range {A : Type} (l : list A) (i : Z) (x : A) :
  (0 <= i < Z.of_nat (length l))%Z ->
  py_setitem l i x = Ok (<[Z.to_nat i := x]> l).
Proof.
  intros Hi. unfold py_setitem.
  destruct (Z.leb_spec 0 i); [|lia].
  destruct (Z.ltb_spec i (Z.of_nat (length l))); [reflexivity | lia].
Qed.

Lemma py_setitem_no_assert {A : Type} (l : list A) (i : Z) (x : A) (msg : string) :
  py_setitem l i x <> Raise (AssertionError msg).
Proof.
  unfold py_setitem.
  repeat match goal with |- context [if ?c then _ else _] => destruct c end;
    discriminate.
Qed.

Lemma bind_no_assert {A B : Type} (m : Result A) (k : A -> Result B) :
  ~ asserts m -> (forall a, ~ asserts (k a)) -> ~ asserts (bind m k).
Proof.
  intros Hm Hk. destruct m as [a|e]; simpl; [apply Hk |].
  intros [msg [= ->]]. apply Hm. now exists msg.
Qed.

Lemma Ok_no_assert {A : Type} (a : A) : ~ asserts (Ok a).
Proof. intros [msg H]. discriminate. Qed.

Lemma setitem_no_assert {A : Type} (l : list A) (i : Z) (x : A) :
  ~ asserts (py_setitem l i x).
Proof. intros [msg H]. exact (py_setitem_no_assert _ _ _ _ H). Qed.

Section TorchOpsFacts.
Context {T : Type} `{ArithT : Arith T}.

Lemma cat_no_assert (ts : list (Tensor T)) : ~ asserts (cat ts).
Proof.
  intros [msg H]. unfold cat in H. destruct ts as [|t0 ts]; [discriminate|].
  destruct (forallb _ _); discriminate.
Qed.

Lemma chunk_no_assert (t : Tensor T) (c : Z) : ~ asserts (chunk t c).
Proof.
  intros [msg H]. unfold chunk in H.
  destruct (c <=? 0)%Z; [discriminate|].
  destruct (Nat.eqb _ 0); discriminate.
Qed.
End TorchOpsFacts.

Create HintDb no_assert.
#[local] Hint Resolve Ok_no_assert setitem_no_assert cat_no_assert chunk_no_assert
  : no_assert.

Ltac no_assert :=
  repeat first
    [ apply bind_no_assert; [| intros ? ]
    | progress eauto with no_assert
    | match goal with |- ~ asserts (if ?c then _ else _) => destruct c end ].

(** ** gather_features: the two assertions *)

Section GatherAssertions.
Context {T : Type} `{ArithT : Arith T}.
Variable rt : Runtime T.
Variables features_a features_b : Tensor T.
Variables local_loss gather_with_grad use_horovod : bool.
Variables rank world_size : Z.

Lemma gather_without_distributed :
  has_distributed rt = false ->
  gather_features rt features_a features_b local_loss gather_with_grad
                  rank world_size use_horovod
    = Raise (AssertionError msg_no_distributed).
Proof. intros H. unfold gather_features. rewrite H. reflexivity. Qed.

Lemma gather_without_horovod :
  has_distributed rt = true -> use_horovod = true -> hvd rt = None ->
  gather_features rt features_a features_b local_loss gather_with_grad
                  rank world_size use_horovod
    = Raise (AssertionError msg_no_horovod).
Proof.
  intros H1 H2 H3. unfold gather_features. rewrite H1, H2, H3. reflexivity.
Qed.

Lemma gather_with_backends :
  collectives_do_not_assert rt ->
  has_distributed rt = true -> (use_horovod = true -> hvd rt <> None) ->
  ~ asserts (gather_features rt features_a features_b local_loss gather_with_grad
                             rank world_size use_horovod).
Proof.
  intros (Hnn & Hdist & Hhvd) H1 H2. unfold gather_features.
  rewrite H1. simpl.
  destruct use_horovod.
  - destruct (hvd rt) as [h|] eqn:Eh; [| now destruct H2].
    pose proof (fun x => Hhvd h x eq_refl) as Hh.
    destruct gather_with_grad; no_assert; apply Hh.
  - destruct gather_with_grad; no_assert.
Qed.
End GatherAssertions.

(** C9 (as amended).  Every call fails the first assertion when
    [torch.distributed] did not import, whichever backend is requested, and
    the second one when horovod is requested but not installed; when
    [torch.distributed] imported and horovod, if requested, is installed,
    neither assertion fires: the call does not end in an [AssertionError]
    (the collectives being free of assertions of their own). *)
Theorem gather_features_assertions {T : Type} `{ArithT : Arith T} (rt : Runtime T)
    (features_a features_b : Tensor T) (local_loss gather_with_grad : bool)
    (rank world_size : Z) (use_horovod : bool) :
  let call := gather_features rt features_a features_b local_loss gather_with_grad
                              rank world_size use_horovod in
  (has_distributed rt = false -> call = Raise (AssertionError msg_no_distributed)) /\
  (has_distributed rt = true -> use_horovod = true -> hvd rt = None ->
     call = Raise (AssertionError msg_no_horovod)) /\
  (collectives_do_not_assert rt -> has_distributed rt = true ->
     (use_horovod = true -> hvd rt <> None) -> ~ asserts call).
Proof.
  intros call. split; [| split].
  - apply gather_without_distributed.
  - apply gather_without_horovod.
  - apply gather_with_backends.
Qed.

Lemma sim_runtime_quiet {T : Type} `{ArithT : Arith T} (d h : bool)
    (world : Tensor T -> list (Tensor T)) :
  collectives_do_not_assert (sim_runtime d h world).
Proof.
  repeat split; simpl.
  - intros x. apply Ok_no_assert.
  - intros out x. destruct (Nat.eqb _ _); [apply Ok_no_assert|].
    intros [msg H]. discriminate.
  - intros hv x Hh. destruct h; [|discriminate].
    injection Hh as E. subst hv. simpl. apply cat_no_assert.
Qed.

Lemma gather_features_assertions_witness :
  let x := mkTensor "cpu" 1 2 [[1; 2]]%Z in
  gather_features (sim_runtime false false two_workers) x x false false 0 2 false
    = Raise (AssertionError msg_no_distributed) /\
  gather_features (sim_runtime true false two_workers) x x false false 0 2 true
    = Raise (AssertionError msg_no_horovod) /\
  ~ asserts (gather_features (sim_runtime true true two_workers) x x false false 0 2 true).
Proof.
  intros x. split; [| split].
  - apply (gather_features_assertions (sim_runtime false false two_workers)
             x x false false 0 2 false). reflexivity.
  - apply (gather_features_assertions (sim_runtime true false two_workers)
             x x false false 0 2 true); reflexivity.
  - apply (gather_features_assertions (sim_runtime true true two_workers)
             x x false false 0 2 true).
    + apply sim_runtime_quiet.
    + reflexivity.
    + intros _. discriminate.
Defined.

(** C9, the claim as stated fails: horovod is the selected backend and it is
    installed, yet the [torch.distributed] assertion fires. *)
Lemma horovod_available_yet_assertion_fires :
  let x := mkTensor "cpu" 1 2 [[1; 2]]%Z in
  let rt := sim_runtime false true two_workers in
  hvd rt <> None /\
  gather_features rt x x false false 0 2 true
    = Raise (AssertionError msg_no_distributed).
Proof. split; [discriminate | reflexivity]. Qed.

(** ** ClipLoss.forward: the feature pair *)

(** C10.  Without a complete pairing the call raises [UnboundLocalError]
    for [features_a] and leaves the object as it was, whatever the runtime;
    with both pairings complete the (image, text) one is used. *)
Theorem forward_feature_pairing {T : Type} `{AnalyticT : Analytic T} (rt : Runtime T)
    (logit_scale : option T) (output_dict : bool) (st : State) :
  (forall image_features text_features text_a_features text_b_features,
     image_features = None \/ text_features = None ->
     text_a_features = None \/ text_b_features = None ->
     ClipLoss_forward rt image_features text_features logit_scale
                      text_a_features text_b_features output_dict st
       = (Raise (UnboundLocalError "features_a"), st)) /\
  (forall image_features text_features text_a_features text_b_features,
     ClipLoss_forward rt (Some image_features) (Some text_features) logit_scale
                      (Some text_a_features) (Some text_b_features) output_dict st
       = ClipLoss_forward rt (Some image_features) (Some text_features) logit_scale
                          None None output_dict st).
Proof.
  split.
  - intros i t a b Hit Hab. unfold ClipLoss_forward, cbind, lift.
    destruct i, t, a, b; try reflexivity;
      destruct Hit as [?|?], Hab as [?|?]; discriminate.
  - reflexivity.
Qed.

Lemma forward_feature_pairing_witness :
  let x := mkTensor "cpu" 1 1 [[1%R]] in
  let st := fresh (ClipLoss_init false false true 0 1 false) 0 in
  ClipLoss_forward (sim_runtime true true alone) (Some x) None (Some 1%R)
                   None (Some x) false st
    = (Raise (UnboundLocalError "features_a"), st).
Proof.
  intros x st.
  apply (forward_feature_pairing (sim_runtime true true alone) (Some 1%R) false st);
    [right | left]; reflexivity.
Defined.

(** ** The output_dict flag *)

Section OutputDict.
Context {T : Type} `{AnalyticT : Analytic T}.
Variable rt : Runtime T.

Lemma dict_of_scalar (k : string) (x : T) :
  dom ({[ k := x ]} : gmap string T) = {[ k ]} /\
  ({[ k := x ]} : gmap string T) !! k = Some x.
Proof. split; [apply dom_singleton_L | apply lookup_singleton_eq]. Qed.

Lemma dict_of_pair (k1 k2 : string) (x y : T) :
  k1 <> k2 ->
  let d : gmap string T := <[ k2 := y ]> {[ k1 := x ]} in
  dom d = {[ k1; k2 ]} /\ d !! k1 = Some x /\ d !! k2 = Some y.
Proof.
  intros Hne d. subst d. repeat split.
  - rewrite dom_insert_L, dom_singleton_L. apply union_comm_L.
  - rewrite lookup_insert_ne by congruence. apply lookup_singleton_eq.
  - apply lookup_insert_eq.
Qed.

Lemma honours_cbind {A : Type} (keys : list string) (m : Comp A)
    (k1 k2 : A -> Comp (Output T)) (st : State) :
  (forall a st', honours_output_dict keys (k1 a st') (k2 a st')) ->
  honours_output_dict keys (cbind m k1 st) (cbind m k2 st).
Proof.
  intros Hk. unfold cbind. destruct (m st) as [[a|e] st']; [apply Hk|].
  split; reflexivity.
Qed.

Lemma honours_scalar (k : string) (x : T) (st : State) :
  honours_output_dict [k] (cret (Scalar x) st) (cret (Dict {[ k := x ]}) st).
Proof.
  split; [reflexivity|]. simpl. eexists. split; [reflexivity|].
  apply dict_of_scalar.
Qed.

Lemma honours_pair (k1 k2 : string) (x y : T) (st : State) :
  k1 <> k2 ->
  honours_output_dict [k1; k2] (cret (Pair x y) st)
    (cret (Dict (<[ k2 := y ]> {[ k1 := x ]})) st).
Proof.
  intros Hne. split; [reflexivity|]. simpl. eexists. split; [reflexivity|].
  now apply dict_of_pair.
Qed.

Ltac through_binds := repeat (apply honours_cbind; intros ? ?); cbv zeta.

Lemma ClipLoss_honours_output_dict image_features text_features logit_scale
    text_a_features text_b_features st :
  honours_output_dict ["contrastive_loss"]
    (ClipLoss_forward rt image_features text_features logit_scale
                      text_a_features text_b_features false st)
    (ClipLoss_forward rt image_features text_features logit_scale
                      text_a_features text_b_features true st).
Proof. unfold ClipLoss_forward. through_binds. apply honours_scalar. Qed.

Lemma CoCaLoss_honours_output_dict this image_features text_features logits labels
    logit_scale st :
  honours_output_dict ["contrastive_loss"; "caption_loss"]
    (CoCaLoss_forward rt this image_features text_features logits labels
                      logit_scale false st)
    (CoCaLoss_forward rt this image_features text_features logits labels
                      logit_scale true st).
Proof. unfold CoCaLoss_forward. through_binds. now apply honours_pair. Qed.

Lemma DistillClipLoss_honours_output_dict image_features text_features logit_scale
    dist_image_features dist_text_features dist_logit_scale st :
  honours_output_dict ["contrastive_loss"; "distill_loss"]
    (DistillClipLoss_forward rt image_features text_features logit_scale
       dist_image_features dist_text_features dist_logit_scale false st)
    (DistillClipLoss_forward rt image_features text_features logit_scale
       dist_image_features dist_text_features dist_logit_scale true st).
Proof. unfold DistillClipLoss_forward. through_binds. now apply honours_pair. Qed.
End OutputDict.

(** C8.  The three [forward] methods honour [output_dict] in the same way:
    with the flag set the call behaves as without it (same exception, same
    effect on the object) and returns a dict holding, under
    ['contrastive_loss'] alone, or under ['contrastive_loss'] and
    ['caption_loss'] / ['distill_loss'], exactly the bare scalar, or the two
    components of the bare pair, that the call returns without the flag. *)
Theorem output_dict_honoured {T : Type} `{AnalyticT : Analytic T} (rt : Runtime T)
    (st : State) (logit_scale : option T) :
  (forall image_features text_features text_a_features text_b_features,
     honours_output_dict ["contrastive_loss"]
       (ClipLoss_forward rt image_features text_features logit_scale
                         text_a_features text_b_features false st)
       (ClipLoss_forward rt image_features text_features logit_scale
                         text_a_features text_b_features true st)) /\
  (forall this image_features text_features logits labels,
     honours_output_dict ["contrastive_loss"; "caption_loss"]
       (CoCaLoss_forward rt this image_features text_features logits labels
                         logit_scale false st)
       (CoCaLoss_forward rt this image_features text_features logits labels
                         logit_scale true st)) /\
  (forall image_features text_features dist_image_features dist_text_features
          dist_logit_scale,
     honours_output_dict ["contrastive_loss"; "distill_loss"]
       (DistillClipLoss_forward rt image_features text_features logit_scale
          dist_image_features dist_text_features dist_logit_scale false st)
       (DistillClipLoss_forward rt image_features text_features logit_scale
          dist_image_features dist_text_features dist_logit_scale true st)).
Proof.
  split; [| split]; intros.
  - apply ClipLoss_honours_output_dict.
  - apply CoCaLoss_honours_output_dict.
  - apply DistillClipLoss_honours_output_dict.
Qed.

(** ** get_ground_truth *)

Section LabelCache.
Implicit Types (st : State) (s : ClipLoss) (dev : Device) (n : nat).

Lemma int64_fits_spec (k : Z) :
  int64_fits k = true <-> (- 2 ^ 63 <= k < 2 ^ 63)%Z.
Proof.
  unfold int64_fits. rewrite andb_true_iff, Z.leb_le, Z.ltb_lt. reflexivity.
Qed.

Lemma int64_wrap_id (z : Z) : (- 2 ^ 63 <= z < 2 ^ 63)%Z -> int64_wrap z = z.
Proof. intros Hz. unfold int64_wrap. rewrite Z.mod_small by lia. lia. Qed.

Lemma labels_fit_global s n : local_loss s = false -> labels_fit s n = true.
Proof. unfold labels_fit, offsets. intros ->. now rewrite andb_false_r. Qed.

Lemma labels_fit_single s n : (world_size s <= 1)%Z -> labels_fit s n = true.
Proof.
  unfold labels_fit, offsets. intros Hw.
  now destruct (Z.ltb_spec 1 (world_size s)); [lia|].
Qed.

Lemma labels_fit_config s s' n :
  config s' = config s -> labels_fit s' n = labels_fit s n.
Proof.
  unfold config, labels_fit, offsets. intros [= Hl _ _ Hr Hw _].
  now rewrite Hl, Hr, Hw.
Qed.

(** A request is a hit when the watermark matches and the device has an
    entry; anything else recomputes. *)
Lemma get_ground_truth_hit st dev n l :
  prev_num_logits (self st) = n -> labels (self st) !! dev = Some l ->
  get_ground_truth st dev n = (Ok l, st).
Proof.
  intros Hn Hl. unfold get_ground_truth.
  rewrite Hn, Nat.eqb_refl. simpl.
  rewrite bool_decide_eq_true_2 by (apply elem_of_dom; eauto).
  simpl. now rewrite Hl.
Qed.

Lemma miss_test st dev n :
  prev_num_logits (self st) <> n \/ labels (self st) !! dev = None ->
  negb (Nat.eqb (prev_num_logits (self st)) n)
  || negb (bool_decide (dev ∈ dom (labels (self st)))) = true.
Proof.
  intros [Hn | Hd].
  - apply Nat.eqb_neq in Hn. now rewrite Hn.
  - rewrite bool_decide_eq_false_2, orb_true_r; [reflexivity|].
    now apply not_elem_of_dom.
Qed.

(** A miss whose offset is a [long] scalar computes, and caches if asked to. *)
Lemma get_ground_truth_miss st dev n :
  prev_num_logits (self st) <> n \/ labels (self st) !! dev = None ->
  labels_fit (self st) n = true ->
  exists l st',
    get_ground_truth st dev n = (Ok l, st') /\
    values l = computed_values (self st) n /\
    ldevice l = dev /\
    next_tid st <= tid l < next_tid st' /\
    self st' = (if cache_labels (self st) then set_cache (self st) dev l n
                else self st).
Proof.
  intros Hmiss Hfit. unfold get_ground_truth. rewrite (miss_test _ _ _ Hmiss).
  unfold labels_fit, offsets in Hfit.
  unfold computed_values, offsets, arange, add_scalar. simpl.
  destruct ((1 <? world_size (self st))%Z && local_loss (self st)); simpl in *.
  - rewrite Hfit. destruct (cache_labels (self st)); simpl;
      do 2 eexists; (split; [reflexivity|]); simpl; repeat split; lia.
  - destruct (cache_labels (self st)); simpl;
      do 2 eexists; (split; [reflexivity|]); simpl; repeat split; lia.
Qed.

(** A miss whose offset is none raises, after [arange] has allocated its
    tensor, and leaves the object as it was. *)
Lemma get_ground_truth_overflow st dev n :
  prev_num_logits (self st) <> n \/ labels (self st) !! dev = None ->
  labels_fit (self st) n = false ->
  get_ground_truth st dev n
  = (Raise OverflowError, mkState (self st) (S (next_tid st))).
Proof.
  intros Hmiss Hfit. unfold get_ground_truth. rewrite (miss_test _ _ _ Hmiss).
  unfold labels_fit, offsets in Hfit. unfold arange, add_scalar. simpl.
  destruct ((1 <? world_size (self st))%Z && local_loss (self st));
    simpl in *; [| discriminate].
  now rewrite Hfit.
Qed.

(** The outcome of any request is one of the three. *)
Lemma get_ground_truth_cases st dev n :
  (prev_num_logits (self st) = n /\
   exists l, labels (self st) !! dev = Some l /\
             get_ground_truth st dev n = (Ok l, st)) \/
  ((prev_num_logits (self st) <> n \/ labels (self st) !! dev = None) /\
   labels_fit (self st) n = true /\
   exists l st',
     get_ground_truth st dev n = (Ok l, st') /\
     values l = computed_values (self st) n /\
     ldevice l = dev /\
     next_tid st <= tid l < next_tid st' /\
     self st' = (if cache_labels (self st) then set_cache (self st) dev l n
                 else self st)) \/
  ((prev_num_logits (self st) <> n \/ labels (self st) !! dev = None) /\
   labels_fit (self st) n = false /\
   get_ground_truth st dev n
   = (Raise OverflowError, mkState (self st) (S (next_tid st)))).
Proof.
  assert (prev_num_logits (self st) = n /\ labels (self st) !! dev <> None \/
          (prev_num_logits (self st) <> n \/ labels (self st) !! dev = None))
    as [[Hn Hl] | Hmiss].
  { destruct (decide (prev_num_logits (self st) = n)) as [Hn | Hn]; [| auto].
    destruct (labels (self st) !! dev) eqn:Hl; [left | auto].
    split; [exact Hn | discriminate]. }
  - left. split; [exact Hn|].
    destruct (labels (self st) !! dev) as [l|] eqn:El; [| congruence].
    exists l. split; [reflexivity|]. now apply get_ground_truth_hit.
  - right. destruct (labels_fit (self st) n) eqn:Hf; [left | right];
      (split; [exact Hmiss|]); (split; [reflexivity|]).
    + now apply get_ground_truth_miss.
    + now apply get_ground_truth_overflow.
Qed.

Lemma length_computed_values s n : length (computed_values s n) = n.
Proof.
  unfold computed_values. destruct (offsets s);
    rewrite ?length_map, length_seq; reflexivity.
Qed.

(** Where no sum leaves [int64] the computed labels are the exact ones. *)
Lemma computed_values_exact s n :
  (0 <= rank s)%Z -> (Z.of_nat n * (rank s + 1) <= 2 ^ 63)%Z ->
  computed_values s n
  = if offsets s
    then map (fun v => (v + Z.of_nat n * rank s)%Z) (map Z.of_nat (seq 0 n))
    else map Z.of_nat (seq 0 n).
Proof.
  intros Hr Hb. unfold computed_values. destruct (offsets s); [| reflexivity].
  rewrite !map_map. apply map_ext_in. intros i Hi. apply in_seq in Hi.
  apply int64_wrap_id. nia.
Qed.

Lemma get_ground_truth_config st dev n :
  config (self (snd (get_ground_truth st dev n))) = config (self st).
Proof.
  destruct (get_ground_truth_cases st dev n)
    as [(_ & l & _ & ->) | [(_ & _ & l & st' & -> & _ & _ & _ & Hself)
                           | (_ & _ & ->)]];
    [reflexivity | | reflexivity].
  simpl. rewrite Hself. now destruct (cache_labels (self st)).
Qed.

Lemma run_requests_config calls : forall st,
  config (self (run_requests st calls)) = config (self st).
Proof.
  induction calls as [| [dev n] calls IH]; intros st; simpl; [reflexivity|].
  rewrite IH. apply get_ground_truth_config.
Qed.
End LabelCache.

(** C3.  The failing input: an object that caches its labels is asked for 3
    labels on [cuda:0], for 2 on [cuda:1], then for 2 on [cuda:0].  The
    second request moves the watermark to 2, so the third passes the test
    of [prev_num_logits] and is answered with the 3 labels cached for
    [cuda:0], where the claim, and the same object without caching, give
    [arange(2)]. *)
Theorem stale_labels_across_devices :
  let requests := [("cuda:0", 3); ("cuda:1", 2)] in
  let cached := ClipLoss_init false false true 0 1 false in
  let uncached := ClipLoss_init false false false 0 1 false in
  (0 <= rank cached < world_size cached)%Z /\
  (exists l,
     fst (get_ground_truth (run_requests (fresh cached 0) requests) "cuda:0" 2)
       = Ok l /\
     values l = [0; 1; 2]%Z /\
     values l <> spec_labels (local_loss cached) (rank cached) 2) /\
  (exists l,
     fst (get_ground_truth (run_requests (fresh uncached 0) requests) "cuda:0" 2)
       = Ok l /\
     values l = spec_labels (local_loss uncached) (rank uncached) 2).
Proof.
  split; [simpl; lia|]. split.
  - eexists. split; [vm_compute; reflexivity|].
    split; [reflexivity | discriminate].
  - eexists. split; [vm_compute; reflexivity | reflexivity].
Qed.

(** C4.  The failing input: two devices on one caching object, two steps in
    each of which both ask for the same number of labels (3, then 2).  The
    last request, for 2 labels on [cuda:1], is answered with the 3 labels of
    the first step, because the request of [cuda:0] before it has already
    moved the watermark to 2; the same object without caching answers every
    request with labels of the requested length. *)
Theorem stale_labels_in_uniform_steps :
  let cached := fresh (ClipLoss_init false false true 0 1 false) 0 in
  let uncached := fresh (ClipLoss_init false false false 0 1 false) 0 in
  let calls := concat (map step_requests [(["cuda:0"; "cuda:1"], 3);
                                          (["cuda:0"; "cuda:1"], 2)]) in
  map (fun r => match r with Ok l => Some (length (values l)) | Raise _ => None end)
      (answers cached calls) = [Some 3; Some 3; Some 2; Some 3] /\
  ~ Forall2 right_length calls (answers cached calls) /\
  Forall2 right_length calls (answers uncached calls).
Proof.
  intros cached uncached calls. split; [vm_compute; reflexivity|]. split.
  - intros H.
    assert (exists r, answers cached calls !! 3 = Some r /\
                      r = Ok (mkLabels 1 "cuda:1" [0; 1; 2]%Z)) as (r & Hr & Er)
      by (eexists; split; vm_compute; reflexivity).
    assert (calls !! 3 = Some ("cuda:1", 2)) as Hc by reflexivity.
    destruct (Forall2_lookup_lr _ _ _ _ _ _ H Hc Hr) as (l & Hl & Hlen).
    rewrite Er in Hl. injection Hl as <-. discriminate.
  - repeat (constructor; [eexists; split; [vm_compute; reflexivity | reflexivity]|]).
    constructor.
Qed.

(** ** gather_features: rank blocks *)

Section RankBlocks.
Context {T : Type} `{ArithT : Arith T}.
Implicit Types (t x : Tensor T) (ts world : list (Tensor T)) (b d r : nat).

Lemma map_insert {A B : Type} (f : A -> B) (l : list A) (i : nat) (a : A) :
  map f (<[i := a]> l) = <[i := f a]> (map f l).
Proof.
  revert i. induction l as [|y l IH]; intros [|i]; simpl; try reflexivity.
  now rewrite IH.
Qed.

(** Block [r] of a concatenation of blocks of [b] rows each. *)
Lemma block_of_concat {A : Type} (b : nat) (blocks : list (list A)) :
  Forall (fun rs => length rs = b) blocks ->
  forall r rs, blocks !! r = Some rs -> take b (drop (r * b) (concat blocks)) = rs.
Proof.
  induction 1 as [| y blocks Hy Hall IH]; intros r rs Hr; [discriminate|].
  destruct r as [|r]; simpl in *.
  - injection Hr as <-. rewrite <- Hy. apply take_app_length.
  - rewrite <- (drop_drop _ (r * b) b).
    rewrite (drop_app_length' y) by (symmetry; exact Hy). now apply IH.
Qed.

Lemma split_rows_concat (b : nat) (blocks : list (list (list T))) :
  Forall (fun rs => length rs = b) blocks ->
  split_rows (length blocks) b (concat blocks) = blocks.
Proof.
  induction 1 as [| y blocks Hy Hall IH]; simpl; [reflexivity|].
  rewrite (take_app_length' y), (drop_app_length' y) by (symmetry; exact Hy).
  now rewrite IH.
Qed.

Lemma same_shape_rows dev b d ts :
  same_shape dev b d ts -> Forall (fun rs => length rs = b) (map rows ts).
Proof.
  intros H. apply Forall_forall. intros rs Hin.
  apply list_elem_of_In, in_map_iff in Hin as (t & <- & Hin).
  apply list_elem_of_In in Hin.
  destruct (proj1 (Forall_forall _ _) H t Hin) as ((Hlen & _) & _ & Hb & _).
  congruence.
Qed.

Lemma same_shape_sum dev b d ts :
  same_shape dev b d ts -> sum_list (map shape0 ts) = length ts * b.
Proof.
  induction 1 as [| t ts (_ & _ & Hb & _) _ IH]; simpl; [reflexivity|].
  now rewrite IH, Hb.
Qed.

Lemma same_shape_cols dev b d ts t0 :
  same_shape dev b d ts -> device t0 = dev -> shape1 t0 = d ->
  forallb (fun t => String.eqb (device t) (device t0)
                    && Nat.eqb (shape1 t) (shape1 t0)) ts = true.
Proof.
  intros H Hdev Ht0. apply forallb_forall. intros t Hin.
  apply list_elem_of_In in Hin.
  destruct (proj1 (Forall_forall _ _) H t Hin) as (_ & Hv & _ & Hd).
  apply andb_true_iff. split; [apply String.eqb_eq | apply Nat.eqb_eq]; congruence.
Qed.

(** Concatenating a non-empty group of equal-shape batches succeeds. *)
Lemma cat_same_shape dev b d ts :
  same_shape dev b d ts -> ts <> [] ->
  exists t, cat ts = Ok t /\ rows t = concat (map rows ts) /\
            device t = dev /\ shape0 t = length ts * b /\ shape1 t = d.
Proof.
  intros H Hne. destruct ts as [|t0 ts]; [congruence|].
  assert (device t0 = dev /\ shape1 t0 = d) as [Hv Hd].
  { apply Forall_cons in H as [(_ & Hv & _ & Hd) _]. now split. }
  unfold cat. rewrite (same_shape_cols dev b d (t0 :: ts) t0 H Hv Hd).
  eexists. split; [reflexivity|]. simpl.
  split; [reflexivity|]. split; [exact Hv|]. split; [| exact Hd].
  exact (same_shape_sum dev b d (t0 :: ts) H).
Qed.

(** The blocks of any tensor whose rows are the group's rows in order. *)
Lemma blocks_of_group dev b d world t :
  same_shape dev b d world -> rows t = concat (map rows world) ->
  forall r x, world !! r = Some x -> row_block b r t = rows x.
Proof.
  intros H Hrows r x Hr. unfold row_block. rewrite Hrows.
  apply (block_of_concat b (map rows world)).
  - now apply (same_shape_rows dev b d).
  - change (map rows world) with (rows <$> world).
    now rewrite list_lookup_fmap, Hr.
Qed.
End RankBlocks.

Section Splicing.
Context {T : Type} `{ArithT : Arith T}.
Implicit Types (t x : Tensor T) (ts world ps : list (Tensor T)) (b d r : nat).

Lemma ceil_div_blocks (w b : nat) : 0 < w -> (w * b + w - 1) / w = b.
Proof.
  intros Hw. replace (w * b + w - 1) with (b * w + (w - 1)) by lia.
  rewrite Nat.div_add_l by lia. rewrite Nat.div_small by lia. lia.
Qed.

Lemma empty_blocks {A : Type} (l : list (list A)) :
  Forall (fun rs => length rs = 0) l -> l = replicate (length l) [].
Proof.
  induction 1 as [| rs l Hrs _ IH]; simpl; [reflexivity|].
  destruct rs; [| discriminate]. now rewrite <- IH.
Qed.

(** Chunking the gathered tensor by the group size gives back one piece per
    worker, with that worker's rows. *)
Lemma chunk_of_group dev b d world t :
  same_shape dev b d world -> world <> [] ->
  rows t = concat (map rows world) -> device t = dev ->
  shape0 t = length world * b -> shape1 t = d ->
  exists ps, chunk t (Z.of_nat (length world)) = Ok ps /\
             same_shape dev b d ps /\ map rows ps = map rows world.
Proof.
  intros Hw Hne Hrows Hdev Hs0 Hs1.
  assert (0 < length world) as Hpos by (destruct world; simpl; [congruence | lia]).
  pose proof (same_shape_rows dev b d world Hw) as Hlen.
  unfold chunk. destruct (Z.leb_spec (Z.of_nat (length world)) 0); [lia|].
  rewrite Nat2Z.id, Hs0, Hs1, (ceil_div_blocks _ _ Hpos).
  destruct b as [|b]; simpl Nat.eqb; cbv iota.
  - eexists. split; [reflexivity|]. split.
    + apply Forall_replicate. repeat split; [constructor | exact Hdev].
    + rewrite (empty_blocks _ Hlen), length_map.
      change (map rows (replicate (length world) ?x))
        with (rows <$> replicate (length world) x).
      now rewrite fmap_replicate.
  - replace ((length world * S b + S b - 1) / S b) with (length world).
    2:{ replace (length world * S b + S b - 1)
          with (length world * S b + (S b - 1)) by lia.
        rewrite Nat.div_add_l by lia. rewrite Nat.div_small by lia. lia. }
    eexists. split; [reflexivity|].
    pose proof (split_rows_concat (S b) _ Hlen) as Hsp.
    rewrite length_map in Hsp. rewrite Hrows, Hsp, !map_map. simpl.
    split; [| reflexivity].
    apply Forall_forall. intros p Hin.
    apply list_elem_of_In, in_map_iff in Hin as (x & <- & Hin).
    apply list_elem_of_In in Hin.
    destruct (proj1 (Forall_forall _ _) Hw x Hin) as ((Hl & Hr) & _ & Hb & Hd).
    simpl. split; [| split; [exact Hdev | split; [congruence | reflexivity]]].
    unfold wf, wf_rows. simpl. split; [reflexivity |]. now rewrite <- Hd.
Qed.

(** Writing the worker's own batch over its slot changes no row. *)
Lemma splice_own dev b d world ps rank x :
  same_shape dev b d world -> same_shape dev b d ps ->
  map rows ps = map rows world ->
  (0 <= rank < Z.of_nat (length world))%Z ->
  world !! Z.to_nat rank = Some x ->
  exists ps', py_setitem ps rank x = Ok ps' /\ ps' <> [] /\
              same_shape dev b d ps' /\ map rows ps' = map rows world.
Proof.
  intros Hw Hps Hrows Hrank Hx.
  assert (length ps = length world) as Hlen
    by (rewrite <- (length_map rows ps), Hrows; apply length_map).
  exists (<[Z.to_nat rank := x]> ps).
  split; [apply py_setitem_in_range; lia|]. split.
  - intros He. apply (f_equal length) in He. rewrite length_insert in He.
    simpl in He. lia.
  - split.
    + apply Forall_insert; [exact Hps|].
      exact (proj1 (Forall_lookup _ _) Hw _ _ Hx).
    + rewrite map_insert, Hrows. apply list_insert_id.
      change (map rows world) with (rows <$> world).
      now rewrite list_lookup_fmap, Hx.
Qed.

(** One modality through the horovod path without gradient. *)
Lemma horovod_splice dev b d world rank x t :
  same_shape dev b d world -> cat world = Ok t ->
  (0 <= rank < Z.of_nat (length world))%Z ->
  world !! Z.to_nat rank = Some x ->
  exists ps ps' t',
    chunk t (Z.of_nat (length world)) = Ok ps /\
    py_setitem ps rank x = Ok ps' /\
    cat ps' = Ok t' /\ rows t' = concat (map rows world).
Proof.
  intros Hw Hcat Hrank Hx.
  assert (world <> []) as Hne by (intros ->; discriminate).
  destruct (cat_same_shape dev b d world Hw Hne)
    as (t0 & Ht0 & Hr0 & Hv0 & Hs0 & Hs1).
  rewrite Hcat in Ht0. injection Ht0 as <-.
  destruct (chunk_of_group dev b d world t Hw Hne Hr0 Hv0 Hs0 Hs1)
    as (ps & Hch & Hps & Hrows).
  destruct (splice_own dev b d world ps rank x Hw Hps Hrows Hrank Hx)
    as (ps' & Hset & Hne' & Hps' & Hrows').
  destruct (cat_same_shape dev b d ps' Hps' Hne') as (t' & Ht' & Hr' & _).
  exists ps, ps', t'. repeat split; try assumption. now rewrite Hr', Hrows'.
Qed.
End Splicing.

(** C1.  In a group whose collectives deliver the workers' inputs in rank
    order and whose workers pass batches of one shape, [gather_features]
    called by worker [rank] returns, for every strategy (torch.distributed
    or horovod, with or without gradient, local or global loss), two
    tensors whose row block [r] is the batch of worker [r], for each
    modality and every [r] below the group size. *)
Theorem gather_features_rank_blocks {T : Type} `{ArithT : Arith T} (rt : Runtime T)
    (world_a world_b : list (Tensor T)) (dev_a dev_b : Device) (ba da bb db : nat)
    (features_a features_b : Tensor T)
    (local_loss gather_with_grad use_horovod : bool) (rank : Z) :
  let world_size := Z.of_nat (length world_a) in
  has_distributed rt = true ->
  (use_horovod = true -> hvd rt <> None) ->
  length world_b = length world_a ->
  same_shape dev_a ba da world_a -> same_shape dev_b bb db world_b ->
  (0 <= rank < world_size)%Z ->
  world_a !! Z.to_nat rank = Some features_a ->
  world_b !! Z.to_nat rank = Some features_b ->
  rank_ordered rt features_a world_a ->
  rank_ordered rt features_b world_b ->
  exists all_features_a all_features_b,
    gather_features rt features_a features_b local_loss gather_with_grad
                    rank world_size use_horovod
      = Ok (all_features_a, all_features_b) /\
    (forall r x, world_a !! r = Some x -> row_block ba r all_features_a = rows x) /\
    (forall r x, world_b !! r = Some x -> row_block bb r all_features_b = rows x).
Proof.
  intros world_size Hdist Hhvd Hlen Hwa Hwb Hrank Hxa Hxb
         (Hnn_a & Hdg_a & Hhv_a) (Hnn_b & Hdg_b & Hhv_b).
  assert (world_a <> []) as Hna by (intros ->; simpl in *; lia).
  assert (world_b <> []) as Hnb by (intros ->; simpl in *; lia).
  assert (0 <= rank < Z.of_nat (length world_b))%Z as Hrank_b by (rewrite Hlen; exact Hrank).
  destruct (cat_same_shape dev_a ba da world_a Hwa Hna) as (ta & Hcat_a & Hra & _).
  destruct (cat_same_shape dev_b bb db world_b Hwb Hnb) as (tb & Hcat_b & Hrb & _).
  cut (exists all_a all_b,
         gather_features rt features_a features_b local_loss gather_with_grad
                         rank world_size use_horovod = Ok (all_a, all_b) /\
         rows all_a = concat (map rows world_a) /\
         rows all_b = concat (map rows world_b)).
  { intros (all_a & all_b & Hg & Ha & Hb). exists all_a, all_b.
    split; [exact Hg|]. split.
    - exact (blocks_of_group dev_a ba da world_a all_a Hwa Ha).
    - exact (blocks_of_group dev_b bb db world_b all_b Hwb Hb). }
  unfold gather_features. rewrite Hdist. simpl.
  destruct use_horovod.
  - destruct (hvd rt) as [h|] eqn:Eh; [| now destruct Hhvd].
    rewrite (Hhv_a h eq_refl), (Hhv_b h eq_refl), Hcat_a, Hcat_b. simpl.
    destruct gather_with_grad; [eauto|].
    destruct local_loss; simpl; [eauto|].
    destruct (horovod_splice dev_a ba da world_a rank features_a ta Hwa Hcat_a Hrank Hxa)
      as (pa & pa' & ta' & Hch_a & Hset_a & Hcat_a' & Hra').
    destruct (horovod_splice dev_b bb db world_b rank features_b tb Hwb Hcat_b Hrank_b Hxb)
      as (pb & pb' & tb' & Hch_b & Hset_b & Hcat_b' & Hrb').
    unfold world_size. rewrite Hch_a. rewrite <- Hlen, Hch_b. simpl.
    rewrite Hset_a, Hset_b. simpl. rewrite Hcat_a', Hcat_b'. simpl. eauto.
  - destruct gather_with_grad.
    + rewrite Hnn_a. simpl. rewrite Hcat_a. simpl.
      rewrite Hnn_b. simpl. rewrite Hcat_b. simpl. eauto.
    + rewrite Hdg_a by (rewrite length_replicate; unfold world_size; lia).
      simpl.
      rewrite Hdg_b by (rewrite length_replicate; unfold world_size; lia).
      simpl.
      destruct local_loss; simpl.
      * rewrite Hcat_a. simpl. rewrite Hcat_b. simpl. eauto.
      * rewrite (py_setitem_in_range world_a) by exact Hrank.
        rewrite (py_setitem_in_range world_b) by exact Hrank_b.
        simpl. rewrite !list_insert_id by assumption.
        rewrite Hcat_a. simpl. rewrite Hcat_b. simpl. eauto.
Qed.

Lemma sim_runtime_rank_ordered {T : Type} `{ArithT : Arith T} (d h : bool)
    (world : Tensor T -> list (Tensor T)) (x : Tensor T) :
  rank_ordered (sim_runtime d h world) x (world x).
Proof.
  split; [reflexivity|]. split.
  - intros out Hout. simpl. now rewrite Hout, Nat.eqb_refl.
  - intros hv Hh. destruct h; [|discriminate].
    injection Hh as E. subst hv. reflexivity.
Qed.

Lemma gather_features_rank_blocks_witness :
  let fa := mkTensor "cuda:0" 1 2 [[1; 2]]%Z in
  let fb := mkTensor "cuda:0" 1 2 [[5; 6]]%Z in
  exists all_a all_b,
    gather_features (sim_runtime true true two_workers) fa fb false false 0 2 true
      = Ok (all_a, all_b) /\
    (forall r x, two_workers fa !! r = Some x -> row_block 1 r all_a = rows x) /\
    (forall r x, two_workers fb !! r = Some x -> row_block 1 r all_b = rows x).
Proof.
  intros fa fb.
  apply (gather_features_rank_blocks (sim_runtime true true two_workers)
           (two_workers fa) (two_workers fb) "cuda:0" "cuda:0" 1 2 1 2
           fa fb false false true 0).
  - reflexivity.
  - discriminate.
  - reflexivity.
  - repeat constructor.
  - repeat constructor.
  - simpl. lia.
  - reflexivity.
  - reflexivity.
  - apply sim_runtime_rank_ordered.
  - apply sim_runtime_rank_ordered.
Defined.

(** ** get_logits: the transpose law *)

Section TransposeLaw.
Context {T : Type} `{ArithT : Arith T}.
Implicit Types (t a b : Tensor T) (x y r : list T) (rs : list (list T)).

Lemma nth_tabulate {A : Type} (f : nat -> A) (m j : nat) (dflt : A) :
  j < m -> nth j (map f (seq 0 m)) dflt = f j.
Proof.
  intros Hj. rewrite (nth_indep _ dflt (f 0)) by (rewrite length_map, length_seq; lia).
  rewrite (map_nth f (seq 0 m) 0 j), seq_nth by lia. reflexivity.
Qed.

(** A list is the table of its elements. *)
Lemma tabulate_nth {A : Type} (l : list A) (dflt : A) :
  map (fun i => nth i l dflt) (seq 0 (length l)) = l.
Proof.
  induction l as [|a l IH]; simpl; [reflexivity|].
  f_equal. rewrite <- seq_shift, map_map. exact IH.
Qed.

Lemma map_as_table {A B : Type} (f : A -> B) (l : list A) (n : nat) (dflt : A) :
  length l = n -> map f l = map (fun i => f (nth i l dflt)) (seq 0 n).
Proof.
  intros <-. rewrite <- (tabulate_nth l dflt) at 1. now rewrite map_map.
Qed.

Lemma nth_row_length (n d : nat) rs (i : nat) :
  wf_rows n d rs -> i < n -> length (nth i rs []) = d.
Proof.
  intros [Hn Hd] Hi. apply (proj1 (Forall_forall _ _) Hd).
  apply list_elem_of_In, nth_In. lia.
Qed.

(** Column [i] of the transpose is row [i]. *)
Lemma column_transpose (n d : nat) rs (i : nat) :
  wf_rows n d rs -> i < n -> column i (transpose_rows d rs) = nth i rs [].
Proof.
  intros Hwf Hi. unfold column at 1. unfold transpose_rows. rewrite map_map.
  transitivity (map (fun j => nth j (nth i rs []) zero) (seq 0 d)).
  - apply map_ext. intros j. unfold column.
    rewrite (nth_indep _ zero (nth j [] zero))
      by (rewrite length_map; destruct Hwf; lia).
    now rewrite (map_nth (fun r => nth j r zero) rs [] i).
  - rewrite <- (nth_row_length n d rs i Hwf Hi). apply tabulate_nth.
Qed.


(** With exact multiplication the scale can change sides. *)
Lemma dot_scale_swap (c : T) x y :
  exact_mul T -> dot (map (mul c) x) y = dot (map (mul c) y) x.
Proof.
  intros [Hcomm Hassoc]. unfold dot. f_equal.
  revert y. induction x as [|u x IH]; intros [|v y]; simpl; try reflexivity.
  rewrite IH. f_equal. now rewrite !Hassoc, (Hcomm u v).
Qed.

Lemma matmul_Ok a b t :
  matmul a b = Ok t ->
  device a = device b /\ shape1 a = shape0 b /\
  t = mkTensor (device a) (shape0 a) (shape1 b)
        (map (fun r => map (fun j => dot r (column j (rows b))) (seq 0 (shape1 b)))
             (rows a)).
Proof.
  unfold matmul. destruct (String.eqb_spec (device a) (device b)) as [Hd|]; simpl;
    [| discriminate].
  destruct (Nat.eqb_spec (shape1 a) (shape0 b)); [| discriminate].
  intros [= <-]. auto.
Qed.

(** The logits as a table of inner products of rows. *)
Lemma logits_table (c : T) a b la :
  wf a -> wf b ->
  (sa <~ scale (Some c) a ;; matmul sa (transpose b)) = Ok la ->
  device a = device b /\ shape1 a = shape1 b /\
  la = mkTensor (device a) (shape0 a) (shape0 b)
         (map (fun i => map (fun j => dot (map (mul c) (nth i (rows a) []))
                                          (nth j (rows b) []))
                            (seq 0 (shape0 b)))
              (seq 0 (shape0 a))).
Proof.
  intros [Han Had] Hb Hla. simpl in Hla.
  apply matmul_Ok in Hla as (Hdev & Hd & ->). simpl in *.
  split; [exact Hdev|]. split; [exact Hd|]. f_equal.
  rewrite map_map.
  rewrite (map_as_table _ (rows a) (shape0 a) []) by exact Han.
  apply map_ext. intros i. apply map_ext_in. intros j Hj. apply in_seq in Hj.
  f_equal. apply (column_transpose (shape0 b) (shape1 b)); [exact Hb | lia].
Qed.

Lemma transpose_table (f : nat -> nat -> T) (n m : nat) :
  transpose_rows m (map (fun i => map (fun j => f i j) (seq 0 m)) (seq 0 n))
  = map (fun j => map (fun i => f i j) (seq 0 n)) (seq 0 m).
Proof.
  unfold transpose_rows. apply map_ext_in. intros j Hj. apply in_seq in Hj.
  unfold column. rewrite map_map. apply map_ext. intros i.
  apply nth_tabulate. lia.
Qed.

(** The single-process branch under exact multiplication. *)
Lemma local_logits_transposed (c : T) a b la lb :
  exact_mul T -> wf a -> wf b ->
  (sa <~ scale (Some c) a ;; matmul sa (transpose b)) = Ok la ->
  (sb <~ scale (Some c) b ;; matmul sb (transpose a)) = Ok lb ->
  lb = transpose la.
Proof.
  intros Hex Ha Hb Hla Hlb.
  apply logits_table in Hla as (Hdev & Hd & ->); [| assumption..].
  apply logits_table in Hlb as (_ & _ & ->); [| assumption..].
  unfold transpose. simpl. rewrite transpose_table. f_equal; [congruence|].
  apply map_ext. intros j. apply map_ext. intros i. now apply dot_scale_swap.
Qed.
End TransposeLaw.

(** C2 (as amended).  Under global loss the second matrix is the transpose
    of the first: by construction when [world_size > 1], and in the
    single-process branch, where it is computed as
    [logit_scale * features_b @ features_a.T], whenever scalar
    multiplication is commutative and associative. *)
Theorem global_logits_transposed {T : Type} `{ArithT : Arith T} (rt : Runtime T)
    (s : ClipLoss) (features_a features_b : Tensor T) (logit_scale : option T)
    (logits_per_feature_a logits_per_feature_b : Tensor T) :
  local_loss s = false ->
  wf features_a -> wf features_b ->
  (1 < world_size s)%Z \/ exact_mul T ->
  get_logits rt s features_a features_b logit_scale
    = Ok (logits_per_feature_a, logits_per_feature_b) ->
  logits_per_feature_b = transpose logits_per_feature_a.
Proof.
  intros Hll Ha Hb Hcase Hget. unfold get_logits in Hget.
  destruct (Z.ltb_spec 1 (world_size s)) as [Hw | Hw].
  - rewrite Hll in Hget.
    apply bind_Ok in Hget as (all & _ & Hget).
    apply bind_Ok in Hget as (sa & _ & Hget).
    apply bind_Ok in Hget as (la & _ & Hget).
    now injection Hget as <- <-.
  - destruct Hcase as [Hlt | Hex]; [lia|].
    destruct logit_scale as [c|]; [| discriminate].
    destruct (sa <~ scale (Some c) features_a ;; matmul sa (transpose features_b))
      as [la|] eqn:Hla.
    2:{ simpl in Hla, Hget. rewrite Hla in Hget. discriminate. }
    destruct (sb <~ scale (Some c) features_b ;; matmul sb (transpose features_a))
      as [lb|] eqn:Hlb.
    2:{ simpl in Hla, Hlb, Hget. rewrite Hla in Hget. simpl in Hget.
        rewrite Hlb in Hget. discriminate. }
    pose proof (local_logits_transposed c _ _ la lb Hex Ha Hb Hla Hlb) as Ht.
    simpl in Hla, Hlb, Hget. rewrite Hla in Hget. simpl in Hget.
    rewrite Hlb in Hget. simpl in Hget. now injection Hget as <- <-.
Qed.

Lemma Z_exact_mul : exact_mul Z.
Proof. split; intros; simpl; lia. Qed.

Lemma global_logits_transposed_witness :
  let s := ClipLoss_init false false false 0 1 false in
  let fa := mkTensor "cpu" 1 2 [[1; 2]]%Z in
  let fb := mkTensor "cpu" 1 2 [[3; 4]]%Z in
  let la := mkTensor "cpu" 1 1 [[22]]%Z in
  get_logits (sim_runtime true false alone) s fa fb (Some 2%Z) = Ok (la, la) /\
  la = transpose la.
Proof.
  intros s fa fb la. split; [reflexivity|].
  apply (global_logits_transposed (sim_runtime true false alone) s fa fb (Some 2%Z)
           la la).
  - reflexivity.
  - repeat constructor.
  - repeat constructor.
  - right. exact Z_exact_mul.
  - reflexivity.
Defined.

(** C2, the claim as stated fails: in [float32], with a single process,
    [logit_scale = 100], [features_a = [[0.1]]] and [features_b = [[0.3]]],
    the first matrix is [[3.0]] and the second is [[3.0000002]]. *)
Lemma float32_logits_not_transposed :
  let s := ClipLoss_init false false false 0 1 false in
  let fa := mkTensor "cpu" 1 1 [[f32_0_1]] in
  let fb := mkTensor "cpu" 1 1 [[f32_0_3]] in
  exists la lb,
    local_loss s = false /\ world_size s = 1%Z /\
    @get_logits _ binary32 (@sim_runtime _ binary32 true false alone) s fa fb
                (Some f32_100) = Ok (la, lb) /\
    rows la = [[f32_3]] /\ rows lb = [[f32_3_next]] /\
    lb <> @transpose _ binary32 la.
Proof.
  intros s fa fb. do 2 eexists.
  split; [reflexivity|]. split; [reflexivity|].
  split; [vm_compute; reflexivity|].
  split; [reflexivity|]. split; [reflexivity|].
  vm_compute. discriminate.
Qed.

(** ** ClipLoss.forward: the symmetric cross-entropy *)

Section SymmetricLoss.
Context {T : Type} `{AnalyticT : Analytic T}.
Variable rt : Runtime T.

Lemma selected_pair_chosen
    (image_features text_features text_a_features text_b_features : option (Tensor T))
    (features_a features_b : Tensor T) :
  selected_pair image_features text_features text_a_features text_b_features
                features_a features_b ->
  match image_features, text_features with
  | Some a, Some b => Some (a, b)
  | _, _ => match text_a_features, text_b_features with
            | Some a, Some b => Some (a, b)
            | _, _ => None
            end
  end = Some (features_a, features_b).
Proof.
  intros [[-> ->] | ([-> | ->] & -> & ->)]; try reflexivity.
  now destruct image_features.
Qed.

(** The pieces return, so [forward] returns their mean. *)
Lemma forward_returns_mean (st st' : State)
    image_features text_features text_a_features text_b_features
    (logit_scale : option T) (output_dict : bool)
    (features_a features_b logits_a logits_b : Tensor T)
    (labels : LabelTensor) (ce_a ce_b : T) :
  selected_pair image_features text_features text_a_features text_b_features
                features_a features_b ->
  get_logits rt (self st) features_a features_b logit_scale
    = Ok (logits_a, logits_b) ->
  get_ground_truth st (device features_a) (shape0 logits_a) = (Ok labels, st') ->
  cross_entropy default_ignore_index logits_a (values labels) = Ok ce_a ->
  cross_entropy default_ignore_index logits_b (values labels) = Ok ce_b ->
  ClipLoss_forward rt image_features text_features logit_scale
                   text_a_features text_b_features output_dict st
    = (Ok (returned output_dict (mean2 ce_a ce_b)), st').
Proof.
  intros Hsel Hlog Hlab Ha Hb.
  unfold ClipLoss_forward. rewrite (selected_pair_chosen _ _ _ _ _ _ Hsel).
  unfold cbind, lift, reading, cret, read_local. simpl.
  rewrite Hlog. simpl. rewrite Hlab. simpl. rewrite Ha, Hb.
  unfold returned, mean2. now destruct output_dict.
Qed.

(** [forward] returns, so the pieces returned and it returns their mean. *)
Lemma forward_returned_mean (st st' : State)
    image_features text_features text_a_features text_b_features
    (logit_scale : option T) (output_dict : bool)
    (features_a features_b : Tensor T) (out : Output T) :
  selected_pair image_features text_features text_a_features text_b_features
                features_a features_b ->
  ClipLoss_forward rt image_features text_features logit_scale
                   text_a_features text_b_features output_dict st
    = (Ok out, st') ->
  exists logits_a logits_b labels ce_a ce_b,
    get_logits rt (self st) features_a features_b logit_scale
      = Ok (logits_a, logits_b) /\
    get_ground_truth st (device features_a) (shape0 logits_a) = (Ok labels, st') /\
    cross_entropy default_ignore_index logits_a (values labels) = Ok ce_a /\
    cross_entropy default_ignore_index logits_b (values labels) = Ok ce_b /\
    out = returned output_dict (mean2 ce_a ce_b).
Proof.
  intros Hsel. unfold ClipLoss_forward.
  rewrite (selected_pair_chosen _ _ _ _ _ _ Hsel).
  unfold cbind, lift, reading, cret, read_local. simpl.
  destruct (get_logits rt (self st) features_a features_b logit_scale)
    as [[la lb]|] eqn:Hlog; [| discriminate]. simpl.
  destruct (get_ground_truth st (device features_a) (shape0 la))
    as [[labels|] st1] eqn:Hlab; [| discriminate].
  destruct (cross_entropy default_ignore_index la (values labels))
    as [ca|] eqn:Ha; [| discriminate].
  destruct (cross_entropy default_ignore_index lb (values labels))
    as [cb|] eqn:Hb; [| discriminate].
  intros [= <- <-]. exists la, lb, labels, ca, cb.
  repeat split; assumption.
Qed.
End SymmetricLoss.

(** C5.  On the selected feature pair, [forward] returns exactly when
    [get_logits], [get_ground_truth] (for the device of [features_a] and the
    row count of [logits_a]) and the two cross-entropies return, and what it
    returns is the arithmetic mean of [cross_entropy(logits_a, labels)] and
    [cross_entropy(logits_b, labels)], leaving the object as
    [get_ground_truth] left it. *)
Theorem forward_mean_of_cross_entropies {T : Type} `{AnalyticT : Analytic T}
    (rt : Runtime T) (st st' : State)
    (image_features text_features text_a_features text_b_features : option (Tensor T))
    (logit_scale : option T) (output_dict : bool)
    (features_a features_b : Tensor T) (out : Output T) :
  selected_pair image_features text_features text_a_features text_b_features
                features_a features_b ->
  ClipLoss_forward rt image_features text_features logit_scale
                   text_a_features text_b_features output_dict st
    = (Ok out, st') <->
  exists logits_a logits_b labels ce_a ce_b,
    get_logits rt (self st) features_a features_b logit_scale
      = Ok (logits_a, logits_b) /\
    get_ground_truth st (device features_a) (shape0 logits_a) = (Ok labels, st') /\
    cross_entropy default_ignore_index logits_a (values labels) = Ok ce_a /\
    cross_entropy default_ignore_index logits_b (values labels) = Ok ce_b /\
    out = returned output_dict (mean2 ce_a ce_b).
Proof.
  intros Hsel. split.
  - now apply forward_returned_mean.
  - intros (la & lb & labels & ca & cb & Hlog & Hlab & Ha & Hb & ->).
    now apply (forward_returns_mean rt st st' _ _ _ _ _ _ features_a features_b la lb
                 labels ca cb).
Qed.

Lemma forward_mean_of_cross_entropies_witness :
  let s := ClipLoss_init false false false 0 1 false in
  let x := mkTensor "cpu" 1 1 [[1%R]] in
  selected_pair None None (Some x) (Some x) x x /\
  exists ce_a ce_b st',
    ClipLoss_forward (sim_runtime true false alone) None None (Some 1%R)
                     (Some x) (Some x) false (fresh s 0)
      = (Ok (Scalar (mean2 ce_a ce_b)), st').
Proof.
  intros s x.
  assert (selected_pair None None (Some x) (Some x) x x) as Hsel
    by (right; repeat split; now left).
  split; [exact Hsel|]. do 3 eexists.
  apply (forward_mean_of_cross_entropies (sim_runtime true false alone)
           (fresh s 0) _ None None (Some x) (Some x) (Some 1%R) false x x _ Hsel).
  do 5 eexists. do 4 (split; [reflexivity|]). reflexivity.
Defined.

(** ** CoCaLoss: the caption loss ignores padding *)

Section PadMasking.
Context {T : Type} `{AnalyticT : Analytic T}.
Implicit Types (pad : Z) (items : list (list T * Z)) (p : list (list T)).





End PadMasking.



(** ** DistillClipLoss over the reals *)

Section Distillation.
Local Open Scope R_scope.
Implicit Types (x p l : list R) (rs : list (list R)) (t s : Tensor R).

Lemma tsum_sumR l : tsum l = sumR l.
Proof.
  unfold tsum, sumR. simpl. apply fold_symmetric; intros; lra.
Qed.

Lemma sumR_nonneg l : Forall (fun v => 0 <= v) l -> 0 <= sumR l.
Proof. induction 1; simpl; lra. Qed.

Lemma sumR_zero l :
  Forall (fun v => 0 <= v) l -> sumR l = 0 -> Forall (fun v => v = 0) l.
Proof.
  induction 1 as [| v l Hv Hl IH]; simpl; intros Hs; constructor.
  - pose proof (sumR_nonneg l Hl). lra.
  - apply IH. pose proof (sumR_nonneg l Hl). lra.
Qed.

Lemma sumR_opp l : sumR (map Ropp l) = - sumR l.
Proof. induction l as [|v l IH]; simpl; [lra | rewrite IH; lra]. Qed.

Lemma sumR_scale (c : R) l : sumR (map (fun v => v / c) l) = sumR l / c.
Proof.
  induction l as [|v l IH]; simpl; [unfold Rdiv; lra | rewrite IH; unfold Rdiv; lra].
Qed.

Lemma sumR_ones l : Forall (fun v => v = 1) l -> sumR l = INR (length l).
Proof.
  induction 1 as [| v l -> _ IH]; [reflexivity|].
  cbn [sumR fold_right length]. fold (sumR l). rewrite IH, S_INR. lra.
Qed.

Lemma sumR_exp_pos x : x <> [] -> 0 < sumR (map exp x).
Proof.
  intros Hx. destruct x as [|v x]; [congruence|]. simpl.
  assert (0 <= sumR (map exp x)).
  { apply sumR_nonneg, Forall_forall. intros e He.
    apply list_elem_of_In, in_map_iff in He as (u & <- & _).
    left. apply exp_pos. }
  pose proof (exp_pos v). lra.
Qed.

Lemma softmax_R x : softmax x = map (fun v => exp v / sumR (map exp x)) x.
Proof. unfold softmax. simpl. now rewrite tsum_sumR, map_map. Qed.

Lemma length_softmax x : length (softmax x) = length x.
Proof. unfold softmax. now rewrite !length_map. Qed.

(** The softmax of finite logits: positive probabilities that sum to one. *)
Lemma softmax_pos x : Forall (fun v => 0 < v) (softmax x).
Proof.
  rewrite softmax_R. apply Forall_forall. intros v Hv.
  apply list_elem_of_In, in_map_iff in Hv as (u & <- & Hu).
  apply Rdiv_lt_0_compat; [apply exp_pos|].
  apply sumR_exp_pos. intros ->. contradiction.
Qed.

Lemma softmax_sum x : x <> [] -> sumR (softmax x) = 1.
Proof.
  intros Hx. rewrite softmax_R.
  rewrite <- (map_map exp (fun e => e / sumR (map exp x))), sumR_scale.
  pose proof (sumR_exp_pos x Hx). now field_simplify_eq; [| lra].
Qed.

Lemma sumR_bounds l v :
  Forall (fun u => 0 < u) l -> In v l -> v <= sumR l.
Proof.
  induction 1 as [| u l Hu Hl IH]; intros Hin; [contradiction|].
  simpl. pose proof (sumR_nonneg l
    (Forall_impl _ _ _ Hl (fun a Ha => Rlt_le _ _ Ha))).
  destruct Hin as [-> | Hin]; [lra | specialize (IH Hin); lra].
Qed.

Lemma softmax_le_1 x : Forall (fun v => v <= 1) (softmax x).
Proof.
  destruct x as [|u x]; [constructor|].
  apply Forall_forall. intros v Hv. apply list_elem_of_In in Hv.
  rewrite <- (softmax_sum (u :: x)) by discriminate.
  apply sumR_bounds; [apply softmax_pos | exact Hv].
Qed.

Lemma plogp_nonneg (v : R) : 0 < v -> v <= 1 -> 0 <= - (v * ln v).
Proof.
  intros Hpos Hle. assert (ln v <= 0) as Hln.
  { destruct (Req_dec v 1) as [-> | Hne]; [rewrite ln_1; lra|].
    left. rewrite <- ln_1. apply ln_increasing; lra. }
  nra.
Qed.

Lemma plogp_zero (v : R) : 0 < v -> - (v * ln v) = 0 -> v = 1.
Proof.
  intros Hpos Hz. destruct (Req_dec v 1) as [-> | Hne]; [reflexivity|].
  pose proof (ln_neq_0 v Hne Hpos). nra.
Qed.
End Distillation.

Section Entropy.
Local Open Scope R_scope.
Implicit Types (x p l : list R) (rs : list (list R)) (t s : Tensor R).

Lemma entropy_terms p :
  entropy p = sumR (map (fun v => - (v * ln v)) p).
Proof.
  unfold entropy. rewrite <- sumR_opp, map_map. reflexivity.
Qed.

Lemma entropy_terms_nonneg x :
  Forall (fun v => 0 <= v) (map (fun v => - (v * ln v)) (softmax x)).
Proof.
  apply Forall_forall. intros e He.
  apply list_elem_of_In, in_map_iff in He as (v & <- & Hv).
  apply list_elem_of_In in Hv. apply plogp_nonneg.
  - exact (proj1 (Forall_forall _ _) (softmax_pos x) v Hv).
  - exact (proj1 (Forall_forall _ _) (softmax_le_1 x) v Hv).
Qed.

Lemma entropy_softmax_nonneg x : 0 <= entropy (softmax x).
Proof. rewrite entropy_terms. apply sumR_nonneg, entropy_terms_nonneg. Qed.

(** Zero entropy forces a single class. *)
Lemma entropy_softmax_zero x :
  x <> [] -> entropy (softmax x) = 0 -> length x = 1%nat.
Proof.
  intros Hx Hz. rewrite entropy_terms in Hz.
  pose proof (sumR_zero _ (entropy_terms_nonneg x) Hz) as Hall.
  assert (Forall (fun v => v = 1) (softmax x)) as Hones.
  { apply Forall_forall. intros v Hv.
    apply plogp_zero.
    - exact (proj1 (Forall_forall _ _) (softmax_pos x) v Hv).
    - apply (proj1 (Forall_forall _ _) Hall).
      apply list_elem_of_In, in_map_iff. exists v.
      split; [reflexivity | now apply list_elem_of_In]. }
  pose proof (sumR_ones _ Hones) as Hs.
  rewrite softmax_sum, length_softmax in Hs by exact Hx.
  destruct (Nat.eq_dec (length x) 1%nat) as [E | E]; [exact E|].
  exfalso. now apply (not_1_INR _ E).
Qed.

Lemma softmax_single (v : R) : softmax [v] = [1].
Proof.
  rewrite softmax_R. simpl. f_equal. pose proof (exp_pos v).
  now field_simplify_eq; [| lra].
Qed.

(** A softmax is one-hot exactly when there is a single class. *)
Lemma one_hot_softmax x : one_hot (softmax x) <-> length x = 1%nat.
Proof.
  split.
  - intros (i & Hi & Hothers).
    destruct (softmax x) as [|u [|v q]] eqn:E.
    + discriminate.
    + rewrite <- length_softmax, E. reflexivity.
    + exfalso.
      assert (exists j w, j <> i /\ (u :: v :: q) !! j = Some w) as (j & w & Hj & Hw).
      { destruct i as [|i]; [exists 1%nat, v | exists 0%nat, u]; split;
          (lia || reflexivity). }
      pose proof (Hothers j w Hj Hw) as H0.
      assert (0 < w); [| lra].
      rewrite <- E in Hw. apply list_elem_of_lookup_2 in Hw.
      exact (proj1 (Forall_forall _ _) (softmax_pos x) w Hw).
  - intros Hlen. destruct x as [|v [|? ?]]; try discriminate.
    rewrite softmax_single. exists 0%nat. split; [reflexivity|].
    intros [|j] w Hj Hw; [congruence | discriminate].
Qed.

Lemma entropy_one_hot x :
  x <> [] -> (entropy (softmax x) = 0 <-> one_hot (softmax x)).
Proof.
  intros Hx. rewrite one_hot_softmax. split; [now apply entropy_softmax_zero|].
  intros Hlen. destruct x as [|v [|? ?]]; try discriminate.
  rewrite softmax_single. unfold entropy. simpl. rewrite ln_1. lra.
Qed.
End Entropy.

Section DistLoss.
Local Open Scope R_scope.
Implicit Types (x p l : list R) (rs : list (list R)) (t s : Tensor R).

Lemma expand_list_same {A : Type} (n : nat) (l : list A) : expand_list n n l = l.
Proof. unfold expand_list. now rewrite Nat.eqb_refl. Qed.

(** Without broadcasting the product is taken row by row. *)
Lemma mul_tensors_same_shape (a b : Tensor R) :
  device a = device b -> shape0 a = shape0 b -> shape1 a = shape1 b ->
  mul_tensors a b
  = Ok (mkTensor (device a) (shape0 a) (shape1 a)
          (zip_with (zip_with Rmult) (rows a) (rows b))).
Proof.
  intros Hd H0 H1. unfold mul_tensors, broadcast_dim, expand.
  rewrite <- Hd, <- H0, <- H1, String.eqb_refl, !Nat.eqb_refl. simpl.
  rewrite !expand_list_same.
  rewrite !(map_ext (expand_list (shape1 a) (shape1 a)) (fun r : list R => r)
              (expand_list_same (shape1 a))), !map_id.
  reflexivity.
Qed.

Lemma row_terms rs1 rs2 :
  map Ropp (map tsum (zip_with (zip_with Rmult) (map softmax rs1)
                                                (map log_softmax rs2)))
  = zip_with soft_cross_entropy rs1 rs2.
Proof.
  revert rs2. induction rs1 as [|r1 rs1 IH]; intros [|r2 rs2]; simpl;
    try reflexivity.
  rewrite <- IH. unfold soft_cross_entropy at 1. now rewrite tsum_sumR.
Qed.

Lemma dist_loss_rows t s :
  device t = device s -> shape0 t = shape0 s -> shape1 t = shape1 s ->
  dist_loss t s = Ok (meanR (zip_with soft_cross_entropy (rows t) (rows s))).
Proof.
  intros Hd H0 H1. unfold dist_loss.
  rewrite mul_tensors_same_shape by assumption. simpl. f_equal.
  rewrite <- row_terms. unfold tmean, meanR. simpl.
  rewrite tsum_sumR, sumR_opp, !length_map. unfold Rdiv. lra.
Qed.

Lemma zip_with_diag {A B : Type} (f : A -> A -> B) (l : list A) :
  zip_with f l l = map (fun a => f a a) l.
Proof. induction l as [|a l IH]; simpl; [reflexivity | now rewrite IH]. Qed.

Lemma soft_cross_entropy_self x : soft_cross_entropy x x = entropy (softmax x).
Proof.
  unfold soft_cross_entropy, entropy, log_softmax. simpl. do 2 f_equal.
  generalize (softmax x). intros p.
  induction p as [|v p IH]; simpl; [reflexivity | now rewrite IH].
Qed.

Lemma meanR_nonneg l : Forall (fun v => 0 <= v) l -> 0 <= meanR l.
Proof.
  intros Hl. unfold meanR. destruct l as [|v l].
  - simpl. unfold Rdiv. lra.
  - apply Rmult_le_pos; [now apply sumR_nonneg|].
    left. apply Rinv_0_lt_compat, lt_0_INR. simpl. lia.
Qed.

Lemma meanR_zero l :
  l <> [] -> Forall (fun v => 0 <= v) l ->
  (meanR l = 0 <-> Forall (fun v => v = 0) l).
Proof.
  intros Hne Hl. unfold meanR.
  assert (0 < INR (length l)) as Hn.
  { apply lt_0_INR. destruct l; [congruence | simpl; lia]. }
  split.
  - intros Hm. apply sumR_zero; [exact Hl|].
    apply (Rmult_eq_compat_r (INR (length l))) in Hm.
    unfold Rdiv in Hm. rewrite Rmult_assoc, Rinv_l in Hm; lra.
  - intros Hz. assert (sumR l = 0) as ->.
    { clear Hne Hl Hn. induction Hz as [| v l -> _ IH]; simpl; lra. }
    unfold Rdiv. lra.
Qed.

(** Teacher and student equal: the mean over the batch of the entropies of
    the softmax rows, which is positive unless there is a single class. *)
Lemma dist_loss_self t :
  wf t -> (0 < shape0 t)%nat -> (0 < shape1 t)%nat ->
  let h := meanR (map (fun r => entropy (softmax r)) (rows t)) in
  dist_loss t t = Ok h /\ 0 <= h /\
  (h = 0 <-> Forall (fun r => one_hot (softmax r)) (rows t)) /\
  (h = 0 <-> shape1 t = 1%nat).
Proof.
  intros [Hn Hd] H0 H1 h.
  assert (Forall (fun v => 0 <= v) (map (fun r => entropy (softmax r)) (rows t)))
    as Hnonneg.
  { apply Forall_forall. intros e He.
    apply list_elem_of_In, in_map_iff in He as (r & <- & _).
    apply entropy_softmax_nonneg. }
  assert (rows t <> []) as Hne by (intros E; rewrite E in Hn; simpl in Hn; lia).
  assert (Forall (fun r => r <> []) (rows t)) as Hrows.
  { eapply Forall_impl; [exact Hd|]. intros r Hr ->. simpl in Hr. lia. }
  assert (h = 0 <-> Forall (fun r => entropy (softmax r) = 0) (rows t)) as Hzero.
  { unfold h. rewrite meanR_zero; [| | exact Hnonneg].
    - now rewrite Forall_map.
    - intros E. apply map_eq_nil in E. contradiction. }
  split; [| split; [| split]].
  - rewrite dist_loss_rows by reflexivity. unfold h. do 2 f_equal.
    rewrite zip_with_diag. apply map_ext. apply soft_cross_entropy_self.
  - now apply meanR_nonneg.
  - rewrite Hzero. split; intros Hall; apply Forall_forall; intros r Hr.
    + apply entropy_one_hot.
      * exact (proj1 (Forall_forall _ _) Hrows r Hr).
      * exact (proj1 (Forall_forall _ _) Hall r Hr).
    + apply entropy_one_hot.
      * exact (proj1 (Forall_forall _ _) Hrows r Hr).
      * exact (proj1 (Forall_forall _ _) Hall r Hr).
  - rewrite Hzero. split.
    + intros Hall. destruct (rows t) as [|r rs'] eqn:E; [congruence|].
      apply Forall_cons in Hall as [Hr _]. apply Forall_cons in Hd as [Hlen _].
      apply Forall_cons in Hrows as [Hr0 _].
      rewrite <- Hlen. now apply entropy_softmax_zero.
    + intros Hone. apply Forall_forall. intros r Hr.
      apply entropy_one_hot; [exact (proj1 (Forall_forall _ _) Hrows r Hr)|].
      apply one_hot_softmax.
      rewrite (proj1 (Forall_forall _ _) Hd r Hr). exact Hone.
Qed.
End DistLoss.

Section DistillForward.
Context {T : Type} `{AnalyticT : Analytic T}.
Variable rt : Runtime T.

(** The distillation component of the returned pair is the mean of the two
    directional terms. *)
Lemma distill_loss_is_mean image_features text_features logit_scale
    dist_image_features dist_text_features dist_logit_scale st st'
    (contrastive distill : T) :
  DistillClipLoss_forward rt image_features text_features logit_scale
    dist_image_features dist_text_features dist_logit_scale false st
    = (Ok (Pair contrastive distill), st') ->
  exists logits dist_logits d_i d_t,
    get_logits rt (self st) image_features text_features logit_scale = Ok logits /\
    get_logits rt (self st) dist_image_features dist_text_features dist_logit_scale
      = Ok dist_logits /\
    dist_loss (fst dist_logits) (fst logits) = Ok d_i /\
    dist_loss (snd dist_logits) (snd logits) = Ok d_t /\
    distill = mean2 d_i d_t.
Proof.
  unfold DistillClipLoss_forward, cbind, reading, lift, cret.
  destruct (get_logits rt (self st) image_features text_features logit_scale)
    as [logits|] eqn:E1; [| discriminate].
  destruct (get_logits rt (self st) dist_image_features dist_text_features
                       dist_logit_scale) as [dist_logits|] eqn:E2; [| discriminate].
  destruct (get_ground_truth st (device image_features) (shape0 (fst logits)))
    as [[labels|] st1]; [| discriminate].
  destruct (cross_entropy _ (fst logits) _); [| discriminate].
  destruct (cross_entropy _ (snd logits) _); [| discriminate].
  destruct (dist_loss (fst dist_logits) (fst logits)) as [d_i|] eqn:E3;
    [| discriminate].
  destruct (dist_loss (snd dist_logits) (snd logits)) as [d_t|] eqn:E4;
    [| discriminate].
  intros [= _ <- _]. exists logits, dist_logits, d_i, d_t. auto.
Qed.
End DistillForward.

Section DistLossFormula.
Context {T : Type} `{AnalyticT : Analytic T}.
Implicit Types (t s : Tensor T) (rs : list (list T)).

(** The sum over the classes of [softmax(p) * log_softmax(q)]. *)
Lemma row_sums rs1 : forall rs2,
  map tsum (zip_with (zip_with mul) (map softmax rs1) (map log_softmax rs2))
  = zip_with (fun p q => tsum (zip_with mul (softmax p) (log_softmax q))) rs1 rs2.
Proof.
  induction rs1 as [| r1 rs1 IH]; intros [| r2 rs2]; simpl; try reflexivity.
  now rewrite IH.
Qed.

(** What [dist_loss] computes, the product broadcast as torch does. *)
Lemma dist_loss_broadcast t s :
  dist_loss t s
  = if negb (String.eqb (device t) (device s)) then Raise RuntimeError
    else match broadcast_dim (shape0 t) (shape0 s),
               broadcast_dim (shape1 t) (shape1 s) with
         | Some n, Some d =>
             Ok (neg (tmean (map tsum
                   (zip_with (zip_with mul)
                      (expand n d (map_rows softmax t))
                      (expand n d (map_rows log_softmax s))))))
         | _, _ => Raise RuntimeError
         end.
Proof.
  unfold dist_loss, mul_tensors. simpl.
  destruct (negb (String.eqb (device t) (device s))); [reflexivity|].
  destruct (broadcast_dim (shape0 t) (shape0 s)); [| reflexivity].
  destruct (broadcast_dim (shape1 t) (shape1 s)); reflexivity.
Qed.

(** Logits of one shape: nothing is broadcast, the rows are paired. *)
Lemma dist_loss_same_shape t s :
  device t = device s -> shape0 t = shape0 s -> shape1 t = shape1 s ->
  dist_loss t s
  = Ok (neg (tmean (zip_with
               (fun p q => tsum (zip_with mul (softmax p) (log_softmax q)))
               (rows t) (rows s)))).
Proof.
  intros Hd H0 H1. rewrite dist_loss_broadcast.
  unfold broadcast_dim, expand, expand_list. simpl.
  rewrite <- Hd, <- H0, <- H1, String.eqb_refl, !Nat.eqb_refl. simpl.
  rewrite !map_id. now rewrite row_sums.
Qed.
End DistLossFormula.

(** C6 (as amended).  [dist_loss(t, s)] is minus the mean over the rows of
    the sum over the classes of [softmax(t) * log_softmax(s)], in any
    arithmetic: the product is torch's, so that operands of different
    shapes are broadcast or refused, and for logits of one shape the rows
    are paired.  Over the reals that is the mean over the rows of minus
    that sum, and with identical teacher and student the mean of the
    entropies of the teacher's softmax rows: at least 0, and 0 exactly when
    every row is one-hot.  The distillation loss [forward] returns is the
    mean of the two directional terms. *)
Theorem distillation_terms :
  (forall (T : Type) (ArithT : Arith T) (AnalyticT : Analytic T) (t s : Tensor T),
     dist_loss t s
     = if negb (String.eqb (device t) (device s)) then Raise RuntimeError
       else match broadcast_dim (shape0 t) (shape0 s),
                  broadcast_dim (shape1 t) (shape1 s) with
            | Some n, Some d =>
                Ok (neg (tmean (map tsum
                      (zip_with (zip_with mul)
                         (expand n d (map_rows softmax t))
                         (expand n d (map_rows log_softmax s))))))
            | _, _ => Raise RuntimeError
            end) /\
  (forall (T : Type) (ArithT : Arith T) (AnalyticT : Analytic T) (t s : Tensor T),
     device t = device s -> shape0 t = shape0 s -> shape1 t = shape1 s ->
     dist_loss t s
     = Ok (neg (tmean (zip_with
                  (fun p q => tsum (zip_with mul (softmax p) (log_softmax q)))
                  (rows t) (rows s))))) /\
  (forall t s : Tensor R,
     device t = device s -> shape0 t = shape0 s -> shape1 t = shape1 s ->
     dist_loss t s = Ok (meanR (zip_with soft_cross_entropy (rows t) (rows s)))) /\
  (forall t : Tensor R,
     wf t -> 0 < shape0 t -> 0 < shape1 t ->
     let h := meanR (map (fun r => entropy (softmax r)) (rows t)) in
     dist_loss t t = Ok h /\ (0 <= h)%R /\
     (h = 0%R <-> Forall (fun r => one_hot (softmax r)) (rows t))) /\
  (forall (T : Type) (ArithT : Arith T) (AnalyticT : Analytic T) (rt : Runtime T)
          image_features text_features logit_scale
          dist_image_features dist_text_features dist_logit_scale st st'
          contrastive distill,
     DistillClipLoss_forward rt image_features text_features logit_scale
       dist_image_features dist_text_features dist_logit_scale false st
       = (Ok (Pair contrastive distill), st') ->
     exists logits dist_logits d_i d_t,
       get_logits rt (self st) image_features text_features logit_scale = Ok logits /\
       get_logits rt (self st) dist_image_features dist_text_features dist_logit_scale
         = Ok dist_logits /\
       dist_loss (fst dist_logits) (fst logits) = Ok d_i /\
       dist_loss (snd dist_logits) (snd logits) = Ok d_t /\
       distill = mean2 d_i d_t).
Proof.
  split; [| split; [| split; [| split]]].
  - intros T ArithT AnalyticT. apply dist_loss_broadcast.
  - intros T ArithT AnalyticT. apply dist_loss_same_shape.
  - intros t s Hd H0 H1. now apply dist_loss_rows.
  - intros t Hwf H0 H1 h.
    destruct (dist_loss_self t Hwf H0 H1) as (Hd & Hpos & Hone & _).
    repeat split; [exact Hd | exact Hpos | apply Hone | apply Hone].
  - intros T ArithT AnalyticT rt. apply distill_loss_is_mean.
Qed.

Lemma distillation_terms_witness :
  let t := mkTensor "cpu" 1 2 [[0; 0]]%R in
  let h := meanR (map (fun r => entropy (softmax r)) (rows t)) in
  wf t /\ dist_loss t t = Ok h /\ (0 <= h)%R.
Proof.
  intros t h.
  assert (wf t) as Hwf by (repeat constructor).
  split; [exact Hwf|].
  destruct (proj1 (proj2 (proj2 (proj2 distillation_terms))) t Hwf)
    as (Hd & Hh & _); [simpl; lia | simpl; lia |].
  split; [exact Hd | exact Hh].
Defined.

(** C6, the claim as stated fails: with identical teacher and student the
    term is the entropy, not the negative entropy.  For one row of two
    equal logits it is positive, and so differs from its own negation. *)
Lemma self_distillation_is_not_negative_entropy :
  let t := mkTensor "cpu" 1 2 [[0; 0]]%R in
  exists v, dist_loss t t = Ok v /\
            v <> meanR (map (fun r => negative_entropy (softmax r)) (rows t)).
Proof.
  intros t.
  assert (wf t) as Hwf by (repeat constructor).
  destruct (dist_loss_self t Hwf) as (Hd & Hpos & _ & Hzero);
    [simpl; lia | simpl; lia |].
  eexists. split; [exact Hd|].
  set (h := meanR (map (fun r => entropy (softmax r)) (rows t))) in *.
  assert (h <> 0%R) as Hne by (intros E; apply Hzero in E; discriminate).
  assert (meanR (map (fun r => negative_entropy (softmax r)) (rows t)) = (- h)%R)
    as ->.
  { unfold h, meanR, negative_entropy. simpl. unfold Rdiv. lra. }
  lra.
Qed.

(** ** Rounding in [float64]

    The same effect in double precision: [(0.1 * 0.2) * 0.3] and
    [(0.1 * 0.3) * 0.2] round differently. *)
Lemma float64_mul_not_associative :
  let x := S754_finite false 7205759403792794 (-56) in
  let y := S754_finite false 7205759403792794 (-55) in
  let z := S754_finite false 5404319552844595 (-54) in
  @mul _ binary64 (@mul _ binary64 x y) z <> @mul _ binary64 (@mul _ binary64 x z) y.
Proof. vm_compute. discriminate. Qed.

(** ** A single process with well-formed features: [forward] returns *)

Section SingleProcess.
Context {T : Type} `{AnalyticT : Analytic T}.
Variable rt : Runtime T.
Implicit Types (a b t : Tensor T).

Lemma nll_terms_in_range (ignore_index : Z) (items : list (list T * Z)) :
  Forall (fun it => snd it <> ignore_index /\
                    (0 <= snd it < Z.of_nat (length (fst it)))%Z) items ->
  exists ts, nll_terms ignore_index items = Ok ts.
Proof.
  induction 1 as [| [x y] items [Hy Hr] _ [ts IH]]; simpl in *; [eauto|].
  destruct (Z.eqb_spec y ignore_index); [congruence|].
  destruct (Z.leb_spec 0 y); [| lia].
  destruct (Z.ltb_spec y (Z.of_nat (length x))); [| lia].
  simpl. rewrite IH. simpl. eauto.
Qed.

Lemma zip_in_range (m : nat) (rs : list (list T)) : forall start,
  Forall (fun r => length r = m) rs -> start + length rs <= m ->
  Forall (fun it => snd it <> default_ignore_index /\
                    (0 <= snd it < Z.of_nat (length (fst it)))%Z)
         (zip rs (map Z.of_nat (seq start (length rs)))).
Proof.
  induction rs as [| r rs IH]; intros start Hrs Hle; simpl; constructor.
  - apply Forall_cons in Hrs as [Hr _]. simpl in *. unfold default_ignore_index.
    rewrite Hr. lia.
  - apply IH; [now apply Forall_cons in Hrs as [_ ?] | simpl in Hle; lia].
Qed.

(** The diagonal labels are in range for a matrix at least as wide as it is
    tall. *)
Lemma cross_entropy_diagonal t (n m : nat) :
  shape0 t = n -> wf_rows n m (rows t) -> n <= m ->
  exists v, cross_entropy default_ignore_index t (map Z.of_nat (seq 0 n)) = Ok v.
Proof.
  intros H0 [Hn Hm] Hle. unfold cross_entropy, nll_mean.
  rewrite H0, length_map, length_seq, Nat.eqb_refl.
  destruct (nll_terms_in_range default_ignore_index
              (zip (rows t) (map Z.of_nat (seq 0 n)))) as [ts Hts].
  { rewrite <- Hn. apply (zip_in_range m); [exact Hm | lia]. }
  rewrite Hts. simpl. eauto.
Qed.

Lemma matmul_scaled_returns (c : T) a b :
  device a = device b -> shape1 a = shape1 b -> length (rows a) = shape0 a ->
  exists la, (sa <~ scale (Some c) a ;; matmul sa (transpose b)) = Ok la /\
             shape0 la = shape0 a /\
             wf_rows (shape0 a) (shape0 b) (rows la).
Proof.
  intros Hd H1 Hn. simpl. unfold matmul. simpl.
  rewrite Hd, String.eqb_refl, H1, Nat.eqb_refl. simpl.
  eexists. split; [reflexivity|]. simpl. split; [reflexivity|]. split.
  - now rewrite !length_map.
  - apply Forall_forall. intros r Hr.
    apply list_elem_of_In, in_map_iff in Hr as (u & <- & _).
    now rewrite length_map, length_seq.
Qed.

(** Square batches on one device, a scale, a single process, an empty
    cache: [forward] returns a loss. *)
Lemma single_process_forward_returns (s : ClipLoss) (k : nat) (c : T) a b
    (output_dict : bool) :
  wf a -> wf b -> device a = device b ->
  shape0 a = shape0 b -> shape1 a = shape1 b ->
  (world_size s <= 1)%Z -> labels s = ∅ ->
  exists loss st',
    ClipLoss_forward rt (Some a) (Some b) (Some c) None None output_dict (mkState s k)
      = (Ok (returned output_dict loss), st').
Proof.
  intros [Han Had] [Hbn Hbd] Hdev H0 H1 Hws Hempty.
  destruct (matmul_scaled_returns c a b Hdev H1 Han) as (la & Hla & Hla0 & Hlaw).
  destruct (matmul_scaled_returns c b a (eq_sym Hdev) (eq_sym H1) Hbn)
    as (lb & Hlb & Hlb0 & Hlbw).
  assert (get_logits rt s a b (Some c) = Ok (la, lb)) as Hlog.
  { unfold get_logits. destruct (Z.ltb_spec 1 (world_size s)); [lia|].
    simpl in Hla, Hlb |- *. rewrite Hla. simpl. rewrite Hlb. reflexivity. }
  destruct (get_ground_truth_miss (mkState s k) (device a) (shape0 la))
    as (l & st' & Hget & Hv & _);
    [right; simpl; now rewrite Hempty | now apply labels_fit_single |].
  assert (values l = map Z.of_nat (seq 0 (shape0 a))) as Hvals.
  { rewrite Hv, Hla0. unfold computed_values, offsets. simpl.
    destruct (Z.ltb_spec 1 (world_size s)); [lia | reflexivity]. }
  destruct (cross_entropy_diagonal la (shape0 a) (shape0 b) Hla0 Hlaw) as [ca Hca];
    [lia|].
  rewrite <- H0 in Hlbw.
  destruct (cross_entropy_diagonal lb (shape0 a) (shape0 a)) as [cb Hcb];
    [congruence | exact Hlbw | lia |].
  exists (mean2 ca cb), st'.
  apply (forward_returns_mean rt (mkState s k) st' _ _ _ _ _ _ a b la lb l ca cb).
  - left. now split.
  - exact Hlog.
  - exact Hget.
  - now rewrite Hvals.
  - now rewrite Hvals.
Qed.
End SingleProcess.

(** * Further properties of the module *)

(** ** gather_features: what the strategies share *)

Section Strategies.
Context {T : Type} `{ArithT : Arith T}.
Implicit Types (t x : Tensor T) (ts world ps : list (Tensor T)) (b d r : nat).

Lemma tensor_fields t t' :
  device t = device t' -> shape0 t = shape0 t' -> shape1 t = shape1 t' ->
  rows t = rows t' -> t = t'.
Proof. destruct t, t'; simpl; intros; subst; reflexivity. Qed.

Lemma same_rows_length ps world :
  map rows ps = map rows world -> length ps = length world.
Proof. intros H. rewrite <- (length_map rows ps), H. apply length_map. Qed.

(** Chunk, overwrite the own slot, concatenate: the gathered tensor again. *)
Lemma horovod_splice_identity dev b d world rank x t :
  same_shape dev b d world -> cat world = Ok t ->
  (0 <= rank < Z.of_nat (length world))%Z ->
  world !! Z.to_nat rank = Some x ->
  exists ps ps',
    chunk t (Z.of_nat (length world)) = Ok ps /\
    py_setitem ps rank x = Ok ps' /\
    cat ps' = Ok t.
Proof.
  intros Hw Hcat Hrank Hx.
  assert (world <> []) as Hne by (intros ->; discriminate).
  destruct (cat_same_shape dev b d world Hw Hne)
    as (t0 & Ht0 & Hr0 & Hv0 & Hs0 & Hs1).
  rewrite Hcat in Ht0. injection Ht0 as <-.
  destruct (chunk_of_group dev b d world t Hw Hne Hr0 Hv0 Hs0 Hs1)
    as (ps & Hch & Hps & Hrows).
  destruct (splice_own dev b d world ps rank x Hw Hps Hrows Hrank Hx)
    as (ps' & Hset & Hne' & Hps' & Hrows').
  destruct (cat_same_shape dev b d ps' Hps' Hne')
    as (t' & Ht' & Hr' & Hv' & Hs0' & Hs1').
  exists ps, ps'. split; [exact Hch|]. split; [exact Hset|].
  rewrite Ht'. f_equal. apply tensor_fields; try congruence.
  rewrite Hs0', Hs0. f_equal. now apply same_rows_length.
Qed.

Lemma gather_in_group (rt : Runtime T)
    (world_a world_b : list (Tensor T)) (dev_a dev_b : Device) (ba da bb db : nat)
    (features_a features_b : Tensor T) (rank : Z) :
  has_distributed rt = true ->
  length world_b = length world_a ->
  same_shape dev_a ba da world_a -> same_shape dev_b bb db world_b ->
  (0 <= rank < Z.of_nat (length world_a))%Z ->
  world_a !! Z.to_nat rank = Some features_a ->
  world_b !! Z.to_nat rank = Some features_b ->
  rank_ordered rt features_a world_a ->
  rank_ordered rt features_b world_b ->
  exists all_a all_b,
    cat world_a = Ok all_a /\ cat world_b = Ok all_b /\
    forall local_loss gather_with_grad use_horovod,
      (use_horovod = true -> hvd rt <> None) ->
      gather_features rt features_a features_b local_loss gather_with_grad
                      rank (Z.of_nat (length world_a)) use_horovod
        = Ok (all_a, all_b).
Proof.
  intros Hdist Hlen Hwa Hwb Hrank Hxa Hxb
         (Hnn_a & Hdg_a & Hhv_a) (Hnn_b & Hdg_b & Hhv_b).
  assert (world_a <> []) as Hna by (intros ->; simpl in *; lia).
  assert (world_b <> []) as Hnb by (intros ->; simpl in *; lia).
  assert (0 <= rank < Z.of_nat (length world_b))%Z as Hrank_b
    by (rewrite Hlen; exact Hrank).
  destruct (cat_same_shape dev_a ba da world_a Hwa Hna) as (ta & Hcat_a & _).
  destruct (cat_same_shape dev_b bb db world_b Hwb Hnb) as (tb & Hcat_b & _).
  exists ta, tb. split; [exact Hcat_a|]. split; [exact Hcat_b|].
  intros local_loss gather_with_grad use_horovod Hhvd.
  unfold gather_features. rewrite Hdist. simpl.
  destruct use_horovod.
  - destruct (hvd rt) as [h|] eqn:Eh; [| now destruct Hhvd].
    rewrite (Hhv_a h eq_refl), (Hhv_b h eq_refl), Hcat_a, Hcat_b. simpl.
    destruct gather_with_grad; [reflexivity|].
    destruct local_loss; simpl; [reflexivity|].
    destruct (horovod_splice_identity dev_a ba da world_a rank features_a ta
                Hwa Hcat_a Hrank Hxa) as (pa & pa' & Hch_a & Hset_a & Hcat_a').
    destruct (horovod_splice_identity dev_b bb db world_b rank features_b tb
                Hwb Hcat_b Hrank_b Hxb) as (pb & pb' & Hch_b & Hset_b & Hcat_b').
    rewrite Hch_a. rewrite <- Hlen, Hch_b. simpl.
    rewrite Hset_a, Hset_b. simpl. rewrite Hcat_a', Hcat_b'. reflexivity.
  - destruct gather_with_grad.
    + rewrite Hnn_a. simpl. rewrite Hcat_a. simpl.
      rewrite Hnn_b. simpl. rewrite Hcat_b. reflexivity.
    + rewrite Hdg_a by (rewrite length_replicate; lia). simpl.
      rewrite Hdg_b by (rewrite length_replicate; lia). simpl.
      destruct local_loss; simpl.
      * rewrite Hcat_a. simpl. rewrite Hcat_b. reflexivity.
      * rewrite (py_setitem_in_range world_a) by exact Hrank.
        rewrite (py_setitem_in_range world_b) by exact Hrank_b.
        simpl. rewrite !list_insert_id by assumption.
        rewrite Hcat_a. simpl. rewrite Hcat_b. reflexivity.
Qed.

(** In a rank-ordered group of equal-shape batches every strategy returns
    the same two tensors: the concatenation of the group's batches. *)
Theorem gather_features_strategy_independent (rt : Runtime T)
    (world_a world_b : list (Tensor T)) (dev_a dev_b : Device) (ba da bb db : nat)
    (features_a features_b : Tensor T) (rank : Z) :
  has_distributed rt = true ->
  length world_b = length world_a ->
  same_shape dev_a ba da world_a -> same_shape dev_b bb db world_b ->
  (0 <= rank < Z.of_nat (length world_a))%Z ->
  world_a !! Z.to_nat rank = Some features_a ->
  world_b !! Z.to_nat rank = Some features_b ->
  rank_ordered rt features_a world_a ->
  rank_ordered rt features_b world_b ->
  exists all_a all_b,
    cat world_a = Ok all_a /\ cat world_b = Ok all_b /\
    forall local_loss gather_with_grad use_horovod,
      (use_horovod = true -> hvd rt <> None) ->
      gather_features rt features_a features_b local_loss gather_with_grad
                      rank (Z.of_nat (length world_a)) use_horovod
        = Ok (all_a, all_b).
Proof.
  intros Hdist Hlen Hwa Hwb Hrank Hxa Hxb Hoa Hob.
  now apply (gather_in_group rt world_a world_b dev_a dev_b ba da bb db).
Qed.
End Strategies.

Lemma gather_features_strategy_independent_witness :
  let fa := mkTensor "cuda:0" 1 2 [[1; 2]]%Z in
  let fb := mkTensor "cuda:0" 1 2 [[5; 6]]%Z in
  let rt := sim_runtime true true two_workers in
  exists all_a all_b,
    cat (two_workers fa) = Ok all_a /\ cat (two_workers fb) = Ok all_b /\
    forall local_loss gather_with_grad use_horovod,
      (use_horovod = true -> hvd rt <> None) ->
      gather_features rt fa fb local_loss gather_with_grad 0 2 use_horovod
        = Ok (all_a, all_b).
Proof.
  intros fa fb rt.
  apply (gather_features_strategy_independent rt (two_workers fa) (two_workers fb)
           "cuda:0" "cuda:0" 1 2 1 2 fa fb 0).
  - reflexivity.
  - reflexivity.
  - repeat constructor.
  - repeat constructor.
  - simpl. lia.
  - reflexivity.
  - reflexivity.
  - apply sim_runtime_rank_ordered.
  - apply sim_runtime_rank_ordered.
Defined.

(** ** gather_features: the rank argument *)

Lemma py_setitem_out_of_range {A : Type} (l : list A) (i : Z) (x : A) :
  (i < - Z.of_nat (length l) \/ Z.of_nat (length l) <= i)%Z ->
  py_setitem l i x = Raise IndexError.
Proof.
  intros Hi. unfold py_setitem.
  destruct (Z.leb_spec 0 i), (Z.ltb_spec i (Z.of_nat (length l))),
           (Z.leb_spec (- Z.of_nat (length l)) i), (Z.ltb_spec i 0);
    simpl; try reflexivity; lia.
Qed.

Section RankArgument.
Context {T : Type} `{ArithT : Arith T}.
Variable rt : Runtime T.

(** The splice is the only reader of [rank]: without gradient and under
    global loss a rank outside [-world_size, world_size) raises
    [IndexError], after both collectives have run. *)
Theorem gather_features_rank_out_of_range
    (world_a world_b : list (Tensor T)) (dev_a dev_b : Device) (ba da bb db : nat)
    (features_a features_b : Tensor T) (use_horovod : bool) (rank : Z) :
  let world_size := Z.of_nat (length world_a) in
  has_distributed rt = true ->
  (use_horovod = true -> hvd rt <> None) ->
  world_a <> [] -> length world_b = length world_a ->
  same_shape dev_a ba da world_a -> same_shape dev_b bb db world_b ->
  rank_ordered rt features_a world_a ->
  rank_ordered rt features_b world_b ->
  (rank < - world_size \/ world_size <= rank)%Z ->
  gather_features rt features_a features_b false false rank world_size use_horovod
    = Raise IndexError.
Proof.
  intros world_size Hdist Hhvd Hna Hlen Hwa Hwb
         (Hnn_a & Hdg_a & Hhv_a) (Hnn_b & Hdg_b & Hhv_b) Hrank.
  assert (world_b <> []) as Hnb
    by (intros ->; destruct world_a; [congruence | discriminate]).
  unfold gather_features. rewrite Hdist. simpl.
  destruct use_horovod.
  - destruct (hvd rt) as [h|] eqn:Eh; [| now destruct Hhvd].
    destruct (cat_same_shape dev_a ba da world_a Hwa Hna)
      as (ta & Hcat_a & Hra & Hva & Hsa0 & Hsa1).
    destruct (cat_same_shape dev_b bb db world_b Hwb Hnb)
      as (tb & Hcat_b & Hrb & Hvb & Hsb0 & Hsb1).
    destruct (chunk_of_group dev_a ba da world_a ta Hwa Hna Hra Hva Hsa0 Hsa1)
      as (pa & Hch_a & _ & Hrows_a).
    destruct (chunk_of_group dev_b bb db world_b tb Hwb Hnb Hrb Hvb Hsb0 Hsb1)
      as (pb & Hch_b & _ & _).
    rewrite (Hhv_a h eq_refl), (Hhv_b h eq_refl), Hcat_a, Hcat_b. simpl.
    unfold world_size. rewrite Hch_a. rewrite <- Hlen, Hch_b. simpl.
    rewrite py_setitem_out_of_range; [reflexivity|].
    rewrite (same_rows_length _ _ Hrows_a). exact Hrank.
  - rewrite Hdg_a by (rewrite length_replicate; unfold world_size; lia). simpl.
    rewrite Hdg_b by (rewrite length_replicate; unfold world_size; lia). simpl.
    now rewrite py_setitem_out_of_range.
Qed.

(** With gradient, or under local loss, [rank] is never read. *)
Theorem gather_features_rank_unread (features_a features_b : Tensor T)
    (local_loss gather_with_grad use_horovod : bool) (world_size rank rank' : Z) :
  gather_with_grad = true \/ local_loss = true ->
  gather_features rt features_a features_b local_loss gather_with_grad
                  rank world_size use_horovod
  = gather_features rt features_a features_b local_loss gather_with_grad
                    rank' world_size use_horovod.
Proof.
  intros Hflag. unfold gather_features.
  destruct use_horovod, (hvd rt), gather_with_grad, local_loss;
    try reflexivity; destruct Hflag; discriminate.
Qed.
End RankArgument.

Lemma gather_features_rank_out_of_range_witness :
  let x := mkTensor "cuda:0" 1 2 [[1; 2]]%Z in
  gather_features (sim_runtime true true two_workers) x x false false 2 2 true
    = Raise IndexError.
Proof.
  intros x.
  apply (gather_features_rank_out_of_range (sim_runtime true true two_workers)
           (two_workers x) (two_workers x) "cuda:0" "cuda:0" 1 2 1 2 x x true 2).
  - reflexivity.
  - discriminate.
  - discriminate.
  - reflexivity.
  - repeat constructor.
  - repeat constructor.
  - apply sim_runtime_rank_ordered.
  - apply sim_runtime_rank_ordered.
  - right. simpl. lia.
Defined.

Lemma gather_features_rank_unread_witness :
  let x := mkTensor "cuda:0" 1 2 [[1; 2]]%Z in
  gather_features (sim_runtime true true two_workers) x x true false 0 2 false
  = gather_features (sim_runtime true true two_workers) x x true false 7 2 false.
Proof.
  intros x.
  apply (gather_features_rank_unread (sim_runtime true true two_workers)
           x x true false false 2 0 7).
  now right.
Defined.

(** ** get_logits in a process group *)

Section TensorShapes.
Context {T : Type} `{ArithT : Arith T}.
Implicit Types (t x a b : Tensor T) (ts world : list (Tensor T)).

Lemma wf_transpose t : length (rows t) = shape0 t -> wf (transpose t).
Proof.
  intros Hn. unfold wf, wf_rows, transpose, transpose_rows. simpl.
  split; [now rewrite length_map, length_seq|].
  apply Forall_forall. intros r Hr.
  apply list_elem_of_In, in_map_iff in Hr as (j & <- & _).
  unfold column. now rewrite length_map.
Qed.

Lemma length_concat_blocks {A : Type} (n : nat) (blocks : list (list A)) :
  Forall (fun rs => length rs = n) blocks ->
  length (concat blocks) = length blocks * n.
Proof.
  induction 1 as [| rs blocks Hrs _ IH]; simpl; [reflexivity|].
  rewrite length_app, IH, Hrs. reflexivity.
Qed.

(** The concatenation of a group of equal-shape batches is well formed. *)
Lemma wf_cat dev n d ts t :
  same_shape dev n d ts -> cat ts = Ok t ->
  wf t /\ device t = dev /\ shape0 t = length ts * n /\ shape1 t = d /\
  rows t = concat (map rows ts).
Proof.
  intros Hs Hcat.
  assert (ts <> []) as Hne by (intros ->; discriminate).
  destruct (cat_same_shape dev n d ts Hs Hne) as (t0 & Ht0 & Hr & Hv & H0 & H1).
  rewrite Hcat in Ht0. injection Ht0 as <-.
  split; [| auto]. split.
  - rewrite Hr, H0, (length_concat_blocks n), length_map; [reflexivity|].
    now apply (same_shape_rows dev n d).
  - rewrite Hr, H1. apply Forall_forall. intros r Hin.
    apply list_elem_of_In, in_concat in Hin as (rs & Hrs & Hin).
    apply in_map_iff in Hrs as (x & <- & Hx). apply list_elem_of_In in Hx.
    destruct (proj1 (Forall_forall _ _) Hs x Hx) as ((_ & Hd) & _ & _ & Hd1).
    rewrite <- Hd1. apply (proj1 (Forall_forall _ _) Hd).
    now apply list_elem_of_In.
Qed.

(** Entry [(i, j)] of [(c * a) @ b.T] is the inner product of the scaled row
    [i] of [a] with row [j] of [b]. *)
Lemma logits_entry (c : T) a b la (i j : nat) :
  wf a -> wf b ->
  (sa <~ scale (Some c) a ;; matmul sa (transpose b)) = Ok la ->
  i < shape0 a -> j < shape0 b ->
  nth j (nth i (rows la) []) zero
  = dot (map (mul c) (nth i (rows a) [])) (nth j (rows b) []).
Proof.
  intros Ha Hb Hla Hi Hj.
  apply logits_table in Hla as (_ & _ & ->); [| assumption..]. simpl.
  rewrite (nth_tabulate _ (shape0 a) i []) by exact Hi.
  now rewrite nth_tabulate.
Qed.

(** Row [k] of block [r] is row [r * n + k] of the concatenation. *)
Lemma nth_of_block {A : Type} (n r k : nat) (blocks : list (list A)) (rs : list A)
    (dflt : A) :
  Forall (fun q => length q = n) blocks -> blocks !! r = Some rs -> k < n ->
  nth (r * n + k) (concat blocks) dflt = nth k rs dflt.
Proof.
  intros Hall Hr Hk.
  pose proof (block_of_concat n blocks Hall r rs Hr) as Hb.
  assert (length rs = n) as Hrs by exact (proj1 (Forall_lookup _ _) Hall r rs Hr).
  assert (n <= length (drop (r * n) (concat blocks))) as Hlen.
  { apply (f_equal length) in Hb. rewrite length_take in Hb. lia. }
  rewrite length_drop in Hlen.
  transitivity (nth k (drop (r * n) (concat blocks)) dflt).
  - rewrite <- (take_drop (r * n) (concat blocks)) at 1.
    rewrite app_nth2 by (rewrite length_take; lia).
    rewrite length_take. f_equal. lia.
  - rewrite <- (take_drop n (drop (r * n) (concat blocks))), Hb.
    apply app_nth1. lia.
Qed.
End TensorShapes.

Section GroupLogits.
Context {T : Type} `{ArithT : Arith T}.
Variable rt : Runtime T.
Variables world_a world_b : list (Tensor T).
Variable dev : Device.
Variables b d : nat.
Variables features_a features_b : Tensor T.
Variable c : T.
Variable s : ClipLoss.

Hypothesis Hdist : has_distributed rt = true.
Hypothesis Hhvd : use_horovod s = true -> hvd rt <> None.
Hypothesis Hlen : length world_b = length world_a.
Hypothesis Hwa : same_shape dev b d world_a.
Hypothesis Hwb : same_shape dev b d world_b.
Hypothesis Hws : world_size s = Z.of_nat (length world_a).
Hypothesis Hmulti : (1 < world_size s)%Z.
Hypothesis Hrank : (0 <= rank s < world_size s)%Z.
Hypothesis Hxa : world_a !! Z.to_nat (rank s) = Some features_a.
Hypothesis Hxb : world_b !! Z.to_nat (rank s) = Some features_b.
Hypothesis Hoa : rank_ordered rt features_a world_a.
Hypothesis Hob : rank_ordered rt features_b world_b.

Lemma own_batch_shape :
  (wf features_a /\ device features_a = dev /\
   shape0 features_a = b /\ shape1 features_a = d) /\
  (wf features_b /\ device features_b = dev /\
   shape0 features_b = b /\ shape1 features_b = d).
Proof.
  split.
  - exact (proj1 (Forall_lookup _ _) Hwa _ _ Hxa).
  - exact (proj1 (Forall_lookup _ _) Hwb _ _ Hxb).
Qed.

(** What [get_logits] computes in the group, whatever the strategy. *)
Lemma get_logits_in_group :
  exists all_a all_b,
    cat world_a = Ok all_a /\ cat world_b = Ok all_b /\
    forall ll,
      get_logits rt (with_local_loss s ll) features_a features_b (Some c)
      = if ll then
          la <~ similarity c features_a all_b ;;
          lb <~ similarity c features_b all_a ;;
          Ok (la, lb)
        else
          la <~ similarity c all_a all_b ;;
          Ok (la, transpose la).
Proof.
  destruct (gather_in_group rt world_a world_b dev dev b d b d
              features_a features_b (rank s) Hdist Hlen Hwa Hwb)
    as (ta & tb & Hca & Hcb & Hg); try assumption.
  { rewrite <- Hws. exact Hrank. }
  exists ta, tb. split; [exact Hca|]. split; [exact Hcb|].
  intros ll. unfold get_logits. simpl.
  destruct (Z.ltb_spec 1 (world_size s)); [| lia].
  rewrite Hws, (Hg ll (gather_with_grad s) (use_horovod s) Hhvd). simpl.
  unfold similarity. simpl. destruct ll; simpl.
  - destruct (matmul _ (transpose tb)); simpl; [| reflexivity].
    destruct (matmul _ (transpose ta)); reflexivity.
  - destruct (matmul _ (transpose tb)); reflexivity.
Qed.

Lemma similarity_shape (x y : Tensor T) (n m : nat) :
  wf x -> device x = device y -> shape1 x = shape1 y ->
  shape0 x = n -> shape0 y = m ->
  exists l, similarity c x y = Ok l /\ wf l /\ shape0 l = n /\ shape1 l = m /\
            device l = device x.
Proof.
  intros [Hn Hd] Hdev H1 H0 Hm.
  unfold similarity. simpl. unfold matmul. simpl.
  rewrite Hdev, String.eqb_refl, H1, Nat.eqb_refl. simpl.
  eexists. split; [reflexivity|]. simpl. subst n m.
  split; [| auto]. split; simpl.
  - now rewrite !length_map.
  - apply Forall_forall. intros r Hr.
    apply list_elem_of_In, in_map_iff in Hr as (u & <- & _).
    now rewrite length_map, length_seq.
Qed.

Lemma group_logits_shapes :
  exists la lb,
    get_logits rt s features_a features_b (Some c) = Ok (la, lb) /\
    wf la /\ wf lb /\ device la = dev /\ device lb = dev /\
    shape0 la = (if local_loss s then b else length world_a * b) /\
    shape0 lb = (if local_loss s then b else length world_a * b) /\
    shape1 la = length world_a * b /\
    shape1 lb = length world_a * b.
Proof.
  destruct get_logits_in_group as (ta & tb & Hca & Hcb & Hget).
  destruct (wf_cat dev b d world_a ta Hwa Hca) as (Hwta & Hva & Ha0 & Ha1 & _).
  destruct (wf_cat dev b d world_b tb Hwb Hcb) as (Hwtb & Hvb & Hb0 & Hb1 & _).
  destruct own_batch_shape as [(Hwfa & Hfva & Hfa0 & Hfa1) (Hwfb & Hfvb & Hfb0 & Hfb1)].
  assert (with_local_loss s (local_loss s) = s) as Hs by (now destruct s).
  specialize (Hget (local_loss s)). rewrite Hs in Hget. rewrite Hget.
  rewrite Hlen in Hb0.
  destruct (local_loss s).
  - destruct (similarity_shape features_a tb b (length world_a * b))
      as (la & Hla & Hwla & Hla0 & Hla1 & Hlav); try congruence.
    destruct (similarity_shape features_b ta b (length world_a * b))
      as (lb & Hlb & Hwlb & Hlb0 & Hlb1 & Hlbv); try congruence.
    exists la, lb. rewrite Hla. simpl. rewrite Hlb. simpl.
    split; [reflexivity|]. split; [exact Hwla|]. split; [exact Hwlb|].
    repeat split; congruence.
  - destruct (similarity_shape ta tb (length world_a * b) (length world_a * b))
      as (la & Hla & Hwla & Hla0 & Hla1 & Hlav); try congruence.
    exists la, (transpose la). rewrite Hla. simpl.
    split; [reflexivity|]. split; [exact Hwla|].
    split; [apply wf_transpose; now destruct Hwla|].
    simpl. repeat split; congruence.
Qed.

(** In the group [get_logits] returns two well-formed matrices on the
    worker's device: [b] by [world_size * b] under local loss,
    [world_size * b] square under global loss. *)
Theorem get_logits_group_shapes :
  exists la lb,
    get_logits rt s features_a features_b (Some c) = Ok (la, lb) /\
    wf la /\ wf lb /\ device la = dev /\ device lb = dev /\
    shape0 la = (if local_loss s then b else length world_a * b) /\
    shape0 lb = (if local_loss s then b else length world_a * b) /\
    shape1 la = length world_a * b /\
    shape1 lb = length world_a * b.
Proof. exact group_logits_shapes. Qed.

Lemma similarity_rows (x y l : Tensor T) :
  similarity c x y = Ok l ->
  rows l = map (fun r => map (fun j => dot r (column j (rows (transpose y))))
                             (seq 0 (shape0 y)))
               (map (map (mul c)) (rows x)).
Proof.
  unfold similarity. simpl. intros H.
  now apply matmul_Ok in H as (_ & _ & ->).
Qed.

(** Under local loss the first matrix is the worker's row block of the
    first matrix under global loss. *)
Theorem local_logits_are_rank_block :
  exists la lb ga gb,
    get_logits rt (with_local_loss s true) features_a features_b (Some c)
      = Ok (la, lb) /\
    get_logits rt (with_local_loss s false) features_a features_b (Some c)
      = Ok (ga, gb) /\
    rows la = row_block b (Z.to_nat (rank s)) ga.
Proof.
  destruct get_logits_in_group as (ta & tb & Hca & Hcb & Hget).
  destruct (wf_cat dev b d world_a ta Hwa Hca) as (Hwta & Hva & Ha0 & Ha1 & Hra).
  destruct (wf_cat dev b d world_b tb Hwb Hcb) as (Hwtb & Hvb & Hb0 & Hb1 & _).
  destruct own_batch_shape as [(Hwfa & Hfva & Hfa0 & Hfa1) (Hwfb & Hfvb & Hfb0 & Hfb1)].
  destruct (similarity_shape features_a tb b (shape0 tb))
    as (la & Hla & _); try congruence.
  destruct (similarity_shape features_b ta b (shape0 ta))
    as (lb & Hlb & _); try congruence.
  destruct (similarity_shape ta tb (shape0 ta) (shape0 tb))
    as (ga & Hga & _); try congruence.
  exists la, lb, ga, (transpose ga).
  rewrite (Hget true), (Hget false), Hla, Hga. simpl. rewrite Hlb. simpl.
  split; [reflexivity|]. split; [reflexivity|].
  rewrite (similarity_rows _ _ _ Hla). unfold row_block.
  rewrite (similarity_rows _ _ _ Hga), !skipn_map, !firstn_map.
  do 2 f_equal.
  symmetry. exact (blocks_of_group dev b d world_a ta Hwa Hra _ _ Hxa).
Qed.

(** Under local loss the label of row [i] selects, in both matrices, the
    similarity of the worker's own pair [i].  The gathered batch is a
    tensor, so that its row count is an [int64]. *)
Theorem local_labels_select_own_pairs (k : nat) :
  local_loss s = true -> labels s = ∅ ->
  (Z.of_nat (length world_a * b) < 2 ^ 63)%Z ->
  exists la lb l st',
    get_logits rt s features_a features_b (Some c) = Ok (la, lb) /\
    get_ground_truth (mkState s k) (device features_a) (shape0 la) = (Ok l, st') /\
    forall i, i < b ->
      let y := Z.to_nat (nth i (values l) 0%Z) in
      nth y (nth i (rows la) []) zero
        = dot (map (mul c) (nth i (rows features_a) []))
              (nth i (rows features_b) []) /\
      nth y (nth i (rows lb) []) zero
        = dot (map (mul c) (nth i (rows features_b) []))
              (nth i (rows features_a) []).
Proof.
  intros Hll Hempty Hsize.
  destruct get_logits_in_group as (ta & tb & Hca & Hcb & Hget).
  destruct (wf_cat dev b d world_a ta Hwa Hca) as (Hwta & Hva & Ha0 & Ha1 & Hra).
  destruct (wf_cat dev b d world_b tb Hwb Hcb) as (Hwtb & Hvb & Hb0 & Hb1 & Hrb).
  destruct own_batch_shape as [(Hwfa & Hfva & Hfa0 & Hfa1) (Hwfb & Hfvb & Hfb0 & Hfb1)].
  destruct (similarity_shape features_a tb b (shape0 tb))
    as (la & Hla & _ & Hla0 & _); try congruence.
  destruct (similarity_shape features_b ta b (shape0 ta))
    as (lb & Hlb & _); try congruence.
  assert (with_local_loss s (local_loss s) = s) as Hs by (now destruct s).
  rewrite Hll in Hs.
  specialize (Hget true). rewrite Hs in Hget.
  assert (Z.of_nat b * (rank s + 1) <= 2 ^ 63)%Z as Hroom by nia.
  destruct (get_ground_truth_miss (mkState s k) (device features_a) (shape0 la))
    as (l & st' & Hgt & Hv & _); [right; simpl; now rewrite Hempty | |].
  { rewrite Hla0. unfold labels_fit. simpl. apply orb_true_iff. right.
    apply int64_fits_spec. nia. }
  exists la, lb, l, st'. rewrite Hget, Hla. simpl. rewrite Hlb. simpl.
  split; [reflexivity|]. split; [exact Hgt|].
  intros i Hi. cbv zeta.
  assert (Z.to_nat (nth i (values l) 0%Z) = Z.to_nat (rank s) * b + i) as ->.
  { rewrite Hv, Hla0. simpl.
    rewrite computed_values_exact by (simpl; lia). unfold offsets.
    rewrite Hll. destruct (Z.ltb_spec 1 (world_size s)); [| lia]. simpl.
    rewrite map_map.
    rewrite (nth_tabulate (fun v => (Z.of_nat v + Z.of_nat b * rank s)%Z) b i 0%Z Hi).
    rewrite <- (Z2Nat.id (rank s)) at 1 by lia. lia. }
  assert (Z.to_nat (rank s) < length world_a) as Hr by lia.
  assert (Z.to_nat (rank s) * b + i < length world_a * b) as Hj by nia.
  unfold similarity in Hla, Hlb.
  split.
  - rewrite (logits_entry c features_a tb la i _ Hwfa Hwtb Hla) by lia.
    f_equal. rewrite Hrb.
    apply (nth_of_block b _ i (map rows world_b) (rows features_b)); [| | exact Hi].
    + exact (same_shape_rows dev b d world_b Hwb).
    + change (map rows world_b) with (rows <$> world_b).
      now rewrite list_lookup_fmap, Hxb.
  - rewrite (logits_entry c features_b ta lb i _ Hwfb Hwta Hlb) by lia.
    f_equal. rewrite Hra.
    apply (nth_of_block b _ i (map rows world_a) (rows features_a)); [| | exact Hi].
    + exact (same_shape_rows dev b d world_a Hwa).
    + change (map rows world_a) with (rows <$> world_a).
      now rewrite list_lookup_fmap, Hxa.
Qed.

(** Under global loss the label of row [r * b + i] selects the similarity
    of pair [i] of worker [r]. *)
Theorem global_labels_select_pairs (k : nat) :
  local_loss s = false -> labels s = ∅ ->
  exists ga gb l st',
    get_logits rt s features_a features_b (Some c) = Ok (ga, gb) /\
    get_ground_truth (mkState s k) (device features_a) (shape0 ga) = (Ok l, st') /\
    forall r i xa xb,
      world_a !! r = Some xa -> world_b !! r = Some xb -> i < b ->
      let row := r * b + i in
      let y := Z.to_nat (nth row (values l) 0%Z) in
      nth y (nth row (rows ga) []) zero
        = dot (map (mul c) (nth i (rows xa) [])) (nth i (rows xb) []).
Proof.
  intros Hll Hempty.
  destruct get_logits_in_group as (ta & tb & Hca & Hcb & Hget).
  destruct (wf_cat dev b d world_a ta Hwa Hca) as (Hwta & Hva & Ha0 & Ha1 & Hra).
  destruct (wf_cat dev b d world_b tb Hwb Hcb) as (Hwtb & Hvb & Hb0 & Hb1 & Hrb).
  destruct (similarity_shape ta tb (shape0 ta) (shape0 tb))
    as (ga & Hga & _ & Hga0 & _); try congruence.
  assert (with_local_loss s (local_loss s) = s) as Hs by (now destruct s).
  rewrite Hll in Hs.
  specialize (Hget false). rewrite Hs in Hget.
  destruct (get_ground_truth_miss (mkState s k) (device features_a) (shape0 ga))
    as (l & st' & Hgt & Hv & _);
    [right; simpl; now rewrite Hempty | now apply labels_fit_global |].
  exists ga, (transpose ga), l, st'. rewrite Hget, Hga. simpl.
  split; [reflexivity|]. split; [exact Hgt|].
  intros r i xa xb Hr_a Hr_b Hi. cbv zeta. set (row := r * b + i).
  assert (r < length world_a) as Hr by (apply lookup_lt_Some in Hr_a; exact Hr_a).
  assert (row < length world_a * b) as Hrow by (unfold row; nia).
  assert (Z.to_nat (nth row (values l) 0%Z) = row) as ->.
  { rewrite Hv, Hga0, Ha0. simpl. unfold computed_values, offsets.
    rewrite Hll, andb_false_r.
    rewrite (nth_tabulate Z.of_nat (length world_a * b) row 0%Z Hrow). lia. }
  unfold similarity in Hga. rewrite Hlen in Hb0.
  rewrite (logits_entry c ta tb ga row row Hwta Hwtb Hga) by lia.
  f_equal; [f_equal |].
  - rewrite Hra.
    apply (nth_of_block b r i (map rows world_a) (rows xa)); [| | exact Hi].
    + exact (same_shape_rows dev b d world_a Hwa).
    + change (map rows world_a) with (rows <$> world_a).
      now rewrite list_lookup_fmap, Hr_a.
  - rewrite Hrb.
    apply (nth_of_block b r i (map rows world_b) (rows xb)); [| | exact Hi].
    + exact (same_shape_rows dev b d world_b Hwb).
    + change (map rows world_b) with (rows <$> world_b).
      now rewrite list_lookup_fmap, Hr_b.
Qed.
End GroupLogits.

(** The hypotheses of the group, for two workers seen from rank 0. *)
Ltac two_worker_group :=
  first [ reflexivity
        | discriminate
        | apply sim_runtime_rank_ordered
        | solve [repeat constructor]
        | simpl; lia ].

Lemma get_logits_group_shapes_witness :
  let fa := mkTensor "cuda:0" 1 2 [[1; 2]]%Z in
  let fb := mkTensor "cuda:0" 1 2 [[5; 6]]%Z in
  let s := ClipLoss_init true false false 0 2 true in
  exists la lb,
    get_logits (sim_runtime true true two_workers) s fa fb (Some 2%Z) = Ok (la, lb) /\
    wf la /\ wf lb /\ device la = "cuda:0" /\ device lb = "cuda:0" /\
    shape0 la = 1 /\ shape0 lb = 1 /\ shape1 la = 2 /\ shape1 lb = 2.
Proof.
  intros fa fb s.
  apply (get_logits_group_shapes (sim_runtime true true two_workers)
           (two_workers fa) (two_workers fb) "cuda:0" 1 2 fa fb 2%Z s);
    two_worker_group.
Defined.

Lemma local_logits_are_rank_block_witness :
  let fa := mkTensor "cuda:0" 1 2 [[1; 2]]%Z in
  let fb := mkTensor "cuda:0" 1 2 [[5; 6]]%Z in
  let s := ClipLoss_init true false false 0 2 true in
  let rt := sim_runtime true true two_workers in
  exists la lb ga gb,
    get_logits rt (with_local_loss s true) fa fb (Some 2%Z) = Ok (la, lb) /\
    get_logits rt (with_local_loss s false) fa fb (Some 2%Z) = Ok (ga, gb) /\
    rows la = row_block 1 0 ga.
Proof.
  intros fa fb s rt.
  apply (local_logits_are_rank_block rt (two_workers fa) (two_workers fb)
           "cuda:0" 1 2 fa fb 2%Z s);
    two_worker_group.
Defined.

Lemma local_labels_select_own_pairs_witness :
  let fa := mkTensor "cuda:0" 1 2 [[1; 2]]%Z in
  let fb := mkTensor "cuda:0" 1 2 [[5; 6]]%Z in
  let s := ClipLoss_init true false false 0 2 true in
  exists la lb l st',
    get_logits (sim_runtime true true two_workers) s fa fb (Some 2%Z) = Ok (la, lb) /\
    get_ground_truth (mkState s 0) (device fa) (shape0 la) = (Ok l, st') /\
    forall i, i < 1 ->
      let y := Z.to_nat (nth i (values l) 0%Z) in
      nth y (nth i (rows la) []) zero
        = dot (map (mul 2%Z) (nth i (rows fa) [])) (nth i (rows fb) []) /\
      nth y (nth i (rows lb) []) zero
        = dot (map (mul 2%Z) (nth i (rows fb) [])) (nth i (rows fa) []).
Proof.
  intros fa fb s.
  apply (local_labels_select_own_pairs (sim_runtime true true two_workers)
           (two_workers fa) (two_workers fb) "cuda:0" 1 2 fa fb 2%Z s);
    two_worker_group.
Defined.

Lemma global_labels_select_pairs_witness :
  let fa := mkTensor "cuda:0" 1 2 [[1; 2]]%Z in
  let fb := mkTensor "cuda:0" 1 2 [[5; 6]]%Z in
  let s := ClipLoss_init false false false 0 2 true in
  exists ga gb l st',
    get_logits (sim_runtime true true two_workers) s fa fb (Some 2%Z) = Ok (ga, gb) /\
    get_ground_truth (mkState s 0) (device fa) (shape0 ga) = (Ok l, st') /\
    forall r i xa xb,
      two_workers fa !! r = Some xa -> two_workers fb !! r = Some xb -> i < 1 ->
      let row := r * 1 + i in
      let y := Z.to_nat (nth row (values l) 0%Z) in
      nth y (nth row (rows ga) []) zero
        = dot (map (mul 2%Z) (nth i (rows xa) [])) (nth i (rows xb) []).
Proof.
  intros fa fb s.
  apply (global_labels_select_pairs (sim_runtime true true two_workers)
           (two_workers fa) (two_workers fb) "cuda:0" 1 2 fa fb 2%Z s);
    two_worker_group.
Defined.

(** ** get_ground_truth: its effect on the object *)



Section DeviceOfLabels.
Implicit Types (st : State) (s : ClipLoss) (dev : Device) (n : nat).

Lemma get_ground_truth_device st dev n :
  (forall d l, labels (self st) !! d = Some l -> ldevice l = d) ->
  right_device (self st) (dev, n) (fst (get_ground_truth st dev n)) /\
  (forall d l, labels (self (snd (get_ground_truth st dev n))) !! d = Some l ->
               ldevice l = d).
Proof.
  intros Hinv.
  destruct (get_ground_truth_cases st dev n)
    as [(_ & l & Hl & ->)
       | [(_ & _ & l & st' & -> & _ & Hdev & _ & Hself) | (_ & Hf & ->)]]; simpl.
  - split; [| exact Hinv]. left. exists l. split; [reflexivity | now apply Hinv].
  - split; [left; exists l; now split|].
    rewrite Hself. destruct (cache_labels (self st)); [| exact Hinv].
    simpl. intros d l' Hd. destruct (decide (dev = d)) as [<- | Hne].
    + rewrite lookup_insert_eq in Hd. now injection Hd as <-.
    + rewrite lookup_insert_ne in Hd by exact Hne. now apply Hinv.
  - split; [right; now split | exact Hinv].
Qed.

Lemma right_device_config s s' c r :
  config s' = config s -> right_device s' c r -> right_device s c r.
Proof.
  intros Hcfg [H | [Hr Hf]]; [now left | right].
  split; [exact Hr|]. now rewrite <- (labels_fit_config s s' _ Hcfg).
Qed.

Lemma answers_on_device s calls : forall st,
  config (self st) = config s ->
  (forall d l, labels (self st) !! d = Some l -> ldevice l = d) ->
  Forall2 (right_device s) calls (answers st calls).
Proof.
  induction calls as [| [dev n] calls IH]; intros st Hcfg Hinv; simpl; constructor.
  - apply (right_device_config s (self st)); [exact Hcfg|].
    apply get_ground_truth_device, Hinv.
  - apply IH.
    + now rewrite get_ground_truth_config.
    + apply get_ground_truth_device, Hinv.
Qed.
End DeviceOfLabels.

(** Whatever the requests made to an object since its construction, and
    whether the answer is computed or taken from the cache, every answer is
    a tensor on the requested device; the one request that is not answered
    is the one whose offset [num_logits * rank] is no [long] scalar, which
    raises [OverflowError]. *)
Theorem labels_on_requested_device (local_loss gather_with_grad cache_labels : bool)
    (rank world_size : Z) (use_horovod : bool) (k : nat)
    (calls : list (Device * nat)) :
  let s := ClipLoss_init local_loss gather_with_grad cache_labels rank
                         world_size use_horovod in
  Forall2 (right_device s) calls (answers (fresh s k) calls).
Proof.
  intros s. apply answers_on_device; [reflexivity|].
  intros d l H. simpl in H. rewrite lookup_empty in H. discriminate.
Qed.

(** ** The forward methods and the object *)

Section ObjectKept.
Context {T : Type} `{AnalyticT : Analytic T}.
Variable rt : Runtime T.

Lemma keeps_lift {A : Type} (r : Result A) : keeps_object (lift r).
Proof. intros st. split; reflexivity. Qed.

Lemma keeps_reading {A : Type} (f : ClipLoss -> Result A) : keeps_object (reading f).
Proof. intros st. split; reflexivity. Qed.

Lemma keeps_cret {A : Type} (a : A) : keeps_object (cret a).
Proof. intros st. split; reflexivity. Qed.

Lemma keeps_cbind {A B : Type} (m : Comp A) (k : A -> Comp B) :
  keeps_object m -> (forall a, keeps_object (k a)) -> keeps_object (cbind m k).
Proof.
  intros Hm Hk st. unfold cbind.
  destruct (Hm st) as [Hcfg Hoff].
  destruct (m st) as [[a|e] st1]; simpl in *; [| now split].
  destruct (Hk a st1) as [Hcfg' Hoff']. split; [congruence|].
  intros Hc. rewrite Hoff', (Hoff Hc); [reflexivity|].
  assert (cache_labels (self st1) = cache_labels (self st)) as ->
    by (unfold config in Hcfg; congruence).
  exact Hc.
Qed.

Lemma keeps_get_ground_truth (dev : Device) (n : nat) :
  keeps_object (fun st => get_ground_truth st dev n).
Proof.
  intros st.
  destruct (get_ground_truth_cases st dev n)
    as [(_ & l & _ & ->)
       | [(_ & _ & l & st' & -> & _ & _ & _ & Hself) | (_ & _ & ->)]]; simpl.
  - split; reflexivity.
  - rewrite Hself. destruct (cache_labels (self st)) eqn:Hc; simpl.
    + split; [unfold config; simpl; now rewrite Hc | discriminate].
    + split; reflexivity.
  - split; reflexivity.
Qed.

Lemma keeps_if {A : Type} (c : bool) (m1 m2 : Comp A) :
  keeps_object m1 -> keeps_object m2 -> keeps_object (if c then m1 else m2).
Proof. now destruct c. Qed.

Ltac keeps :=
  repeat first
    [ apply keeps_cbind; [| intros ? ]
    | apply keeps_lift | apply keeps_reading | apply keeps_cret
    | apply keeps_get_ground_truth | apply keeps_if ].

Lemma ClipLoss_forward_keeps image_features text_features logit_scale
    text_a_features text_b_features output_dict :
  keeps_object (ClipLoss_forward rt image_features text_features logit_scale
                                 text_a_features text_b_features output_dict).
Proof. unfold ClipLoss_forward. cbv zeta. keeps. Qed.

Lemma CoCaLoss_forward_keeps this image_features text_features logits labels
    logit_scale output_dict :
  keeps_object (CoCaLoss_forward rt this image_features text_features logits labels
                                 logit_scale output_dict).
Proof.
  unfold CoCaLoss_forward. cbv zeta.
  apply keeps_cbind; [apply ClipLoss_forward_keeps | intros ?]. keeps.
Qed.

Lemma DistillClipLoss_forward_keeps image_features text_features logit_scale
    dist_image_features dist_text_features dist_logit_scale output_dict :
  keeps_object (DistillClipLoss_forward rt image_features text_features logit_scale
                  dist_image_features dist_text_features dist_logit_scale
                  output_dict).
Proof. unfold DistillClipLoss_forward. cbv zeta. keeps. Qed.
End ObjectKept.

(** No [forward] method changes the configuration of the object, and with
    caching off none changes the object at all, whether the call returns
    or raises: the label cache is the only state. *)
Theorem forward_keeps_object {T : Type} `{AnalyticT : Analytic T} (rt : Runtime T) :
  (forall image_features text_features logit_scale text_a_features
          text_b_features output_dict,
     keeps_object (ClipLoss_forward rt image_features text_features logit_scale
                                    text_a_features text_b_features output_dict)) /\
  (forall this image_features text_features logits labels logit_scale output_dict,
     keeps_object (CoCaLoss_forward rt this image_features text_features logits
                                    labels logit_scale output_dict)) /\
  (forall image_features text_features logit_scale dist_image_features
          dist_text_features dist_logit_scale output_dict,
     keeps_object (DistillClipLoss_forward rt image_features text_features
                     logit_scale dist_image_features dist_text_features
                     dist_logit_scale output_dict)).
Proof.
  split; [| split]; intros.
  - apply ClipLoss_forward_keeps.
  - apply CoCaLoss_forward_keeps.
  - apply DistillClipLoss_forward_keeps.
Qed.

(** ** The forward methods and the runtime *)

Section RuntimeUse.
Context {T : Type} `{AnalyticT : Analytic T}.
Implicit Types (rt : Runtime T) (s : ClipLoss) (st : State).

Lemma get_logits_single_process rt rt' s (a b : Tensor T) (logit_scale : option T) :
  (world_size s <= 1)%Z ->
  get_logits rt s a b logit_scale = get_logits rt' s a b logit_scale.
Proof.
  intros Hw. unfold get_logits.
  destruct (Z.ltb_spec 1 (world_size s)); [lia | reflexivity].
Qed.

Lemma get_logits_without_distributed rt s (a b : Tensor T) (logit_scale : option T) :
  has_distributed rt = false -> (1 < world_size s)%Z ->
  get_logits rt s a b logit_scale = Raise (AssertionError msg_no_distributed).
Proof.
  intros Hd Hw. unfold get_logits.
  destruct (Z.ltb_spec 1 (world_size s)); [| lia].
  unfold gather_features. rewrite Hd. reflexivity.
Qed.

Lemma ClipLoss_forward_single_process rt rt' st image_features text_features
    logit_scale text_a_features text_b_features output_dict :
  (world_size (self st) <= 1)%Z ->
  ClipLoss_forward rt image_features text_features logit_scale
                   text_a_features text_b_features output_dict st
  = ClipLoss_forward rt' image_features text_features logit_scale
                     text_a_features text_b_features output_dict st.
Proof.
  intros Hw. unfold ClipLoss_forward, cbind, lift, reading.
  destruct (read_local _ _) as [[a b]|]; [| reflexivity]. simpl.
  now rewrite (get_logits_single_process rt rt').
Qed.

Lemma ClipLoss_forward_without_distributed rt st image_features text_features
    logit_scale text_a_features text_b_features output_dict features_a features_b :
  has_distributed rt = false -> (1 < world_size (self st))%Z ->
  selected_pair image_features text_features text_a_features text_b_features
                features_a features_b ->
  ClipLoss_forward rt image_features text_features logit_scale
                   text_a_features text_b_features output_dict st
  = (Raise (AssertionError msg_no_distributed), st).
Proof.
  intros Hd Hw Hsel. unfold ClipLoss_forward.
  rewrite (selected_pair_chosen _ _ _ _ _ _ Hsel).
  unfold cbind, lift, reading, read_local. simpl.
  now rewrite get_logits_without_distributed.
Qed.
End RuntimeUse.

(** With [world_size <= 1] no [forward] method looks at the distributed
    runtime: the outcome is the same in every runtime, one without
    [torch.distributed] included. *)
Theorem single_process_ignores_runtime {T : Type} `{AnalyticT : Analytic T}
    (rt rt' : Runtime T) (st : State) :
  (world_size (self st) <= 1)%Z ->
  (forall image_features text_features logit_scale text_a_features
          text_b_features output_dict,
     ClipLoss_forward rt image_features text_features logit_scale
                      text_a_features text_b_features output_dict st
     = ClipLoss_forward rt' image_features text_features logit_scale
                        text_a_features text_b_features output_dict st) /\
  (forall this image_features text_features logits labels logit_scale output_dict,
     CoCaLoss_forward rt this image_features text_features logits labels
                      logit_scale output_dict st
     = CoCaLoss_forward rt' this image_features text_features logits labels
                        logit_scale output_dict st) /\
  (forall image_features text_features logit_scale dist_image_features
          dist_text_features dist_logit_scale output_dict,
     DistillClipLoss_forward rt image_features text_features logit_scale
       dist_image_features dist_text_features dist_logit_scale output_dict st
     = DistillClipLoss_forward rt' image_features text_features logit_scale
         dist_image_features dist_text_features dist_logit_scale output_dict st).
Proof.
  intros Hw. split; [| split]; intros.
  - now apply ClipLoss_forward_single_process.
  - unfold CoCaLoss_forward, cbind.
    now rewrite (ClipLoss_forward_single_process rt rt').
  - unfold DistillClipLoss_forward, cbind, reading.
    now rewrite !(get_logits_single_process rt rt').
Qed.

Lemma single_process_ignores_runtime_witness :
  let st := fresh (ClipLoss_init false false false 0 1 false) 0 in
  let x := mkTensor "cpu" 1 1 [[1%R]] in
  ClipLoss_forward (sim_runtime true true alone) (Some x) (Some x) (Some 1%R)
                   None None false st
  = ClipLoss_forward (sim_runtime false false alone) (Some x) (Some x) (Some 1%R)
                     None None false st.
Proof.
  intros st x.
  apply (single_process_ignores_runtime (sim_runtime true true alone)
           (sim_runtime false false alone) st).
  simpl. lia.
Defined.

(** With [world_size > 1] and no [torch.distributed], every [forward]
    method given its features raises the assertion of [gather_features]
    before it touches the label cache. *)
Theorem forward_without_distributed {T : Type} `{AnalyticT : Analytic T}
    (rt : Runtime T) (st : State) :
  has_distributed rt = false -> (1 < world_size (self st))%Z ->
  (forall image_features text_features logit_scale text_a_features
          text_b_features output_dict features_a features_b,
     selected_pair image_features text_features text_a_features text_b_features
                   features_a features_b ->
     ClipLoss_forward rt image_features text_features logit_scale
                      text_a_features text_b_features output_dict st
     = (Raise (AssertionError msg_no_distributed), st)) /\
  (forall this image_features text_features logits labels logit_scale output_dict,
     CoCaLoss_forward rt this (Some image_features) (Some text_features) logits
                      labels logit_scale output_dict st
     = (Raise (AssertionError msg_no_distributed), st)) /\
  (forall image_features text_features logit_scale dist_image_features
          dist_text_features dist_logit_scale output_dict,
     DistillClipLoss_forward rt image_features text_features logit_scale
       dist_image_features dist_text_features dist_logit_scale output_dict st
     = (Raise (AssertionError msg_no_distributed), st)).
Proof.
  intros Hd Hw. split; [| split]; intros.
  - now apply (ClipLoss_forward_without_distributed rt st _ _ _ _ _ _
                 features_a features_b).
  - unfold CoCaLoss_forward, cbind.
    rewrite (ClipLoss_forward_without_distributed rt st _ _ _ _ _ _
               image_features text_features); [reflexivity | assumption..|].
    left. now split.
  - unfold DistillClipLoss_forward, cbind, reading.
    now rewrite get_logits_without_distributed.
Qed.

Lemma forward_without_distributed_witness :
  let st := fresh (ClipLoss_init false false true 0 2 false) 0 in
  let x := mkTensor "cpu" 1 1 [[1%R]] in
  DistillClipLoss_forward (sim_runtime false true alone) x x (Some 1%R) x x
                          (Some 1%R) false st
  = (Raise (AssertionError msg_no_distributed), st).
Proof.
  intros st x.
  apply (forward_without_distributed (sim_runtime false true alone) st).
  - reflexivity.
  - simpl. lia.
Defined.

(** ** The subclasses and the base loss *)

(** [CoCaLoss.forward] passes no text pairing to [ClipLoss.forward]: with
    the image or the text features missing it raises [UnboundLocalError],
    before the caption loss is computed and with the object unchanged. *)
Theorem CoCaLoss_needs_image_and_text {T : Type} `{AnalyticT : Analytic T}
    (rt : Runtime T) (this : @CoCaLoss T)
    (image_features text_features : option (Tensor T))
    (logits : Tensor3 T) (labels : LongTensor2) (logit_scale : option T)
    (output_dict : bool) (st : State) :
  image_features = None \/ text_features = None ->
  CoCaLoss_forward rt this image_features text_features logits labels
                   logit_scale output_dict st
  = (Raise (UnboundLocalError "features_a"), st).
Proof.
  intros Hnone. unfold CoCaLoss_forward, ClipLoss_forward, cbind, lift.
  destruct image_features, text_features; try reflexivity.
  destruct Hnone; discriminate.
Qed.

Lemma CoCaLoss_needs_image_and_text_witness :
  let st := fresh (ClipLoss_init false false true 0 1 false) 0 in
  let x := mkTensor "cpu" 1 1 [[1%R]] in
  CoCaLoss_forward (sim_runtime true true alone) (mkCoCaLoss 1%R 2%R 0%Z)
                   (Some x) None (mkTensor3 0 0 0 []) (mkLong2 0 0 [])
                   (Some 1%R) false st
  = (Raise (UnboundLocalError "features_a"), st).
Proof.
  intros st x.
  apply (CoCaLoss_needs_image_and_text (sim_runtime true true alone)).
  now right.
Defined.

(** The contrastive component [DistillClipLoss.forward] returns is what
    [ClipLoss.forward] returns on the student features, with the same
    effect on the object. *)
Theorem distill_contrastive_is_base_loss {T : Type} `{AnalyticT : Analytic T}
    (rt : Runtime T) (image_features text_features : Tensor T)
    (logit_scale : option T) (dist_image_features dist_text_features : Tensor T)
    (dist_logit_scale : option T) (st st' : State) (contrastive distill : T) :
  DistillClipLoss_forward rt image_features text_features logit_scale
    dist_image_features dist_text_features dist_logit_scale false st
    = (Ok (Pair contrastive distill), st') ->
  ClipLoss_forward rt (Some image_features) (Some text_features) logit_scale
                   None None false st
    = (Ok (Scalar contrastive), st').
Proof.
  unfold DistillClipLoss_forward, cbind, reading, lift, cret.
  destruct (get_logits rt (self st) image_features text_features logit_scale)
    as [[la lb]|] eqn:E1; [| discriminate].
  destruct (get_logits rt (self st) dist_image_features dist_text_features
                       dist_logit_scale) as [dist_logits|]; [| discriminate].
  simpl.
  destruct (get_ground_truth st (device image_features) (shape0 la))
    as [[labels|] st1] eqn:E2; [| discriminate].
  destruct (cross_entropy _ la _) as [ca|] eqn:E3; [| discriminate].
  destruct (cross_entropy _ lb _) as [cb|] eqn:E4; [| discriminate].
  destruct (dist_loss _ la); [| discriminate].
  destruct (dist_loss _ lb); [| discriminate].
  intros [= <- _ <-].
  apply (forward_returns_mean rt st st1 _ _ _ _ _ false image_features
           text_features la lb labels ca cb); try assumption.
  left. now split.
Qed.

Lemma distill_contrastive_is_base_loss_witness :
  let st := fresh (ClipLoss_init false false false 0 1 false) 0 in
  let x := mkTensor "cpu" 1 1 [[1%R]] in
  let rt := sim_runtime true true alone in
  exists contrastive distill st',
    DistillClipLoss_forward rt x x (Some 1%R) x x (Some 1%R) false st
      = (Ok (Pair contrastive distill), st') /\
    ClipLoss_forward rt (Some x) (Some x) (Some 1%R) None None false st
      = (Ok (Scalar contrastive), st').
Proof.
  intros st x rt.
  assert (exists contrastive distill st',
            DistillClipLoss_forward rt x x (Some 1%R) x x (Some 1%R) false st
            = (Ok (Pair contrastive distill), st')) as (c & d & st' & H).
  { do 3 eexists.
    lazy -[exp ln Rplus Rmult Rdiv Ropp Rinv INR IZR]. reflexivity. }
  exists c, d, st'. split; [exact H|].
  exact (distill_contrastive_is_base_loss rt x x (Some 1%R) x x (Some 1%R)
           st st' c d H).
Defined.

(** ** ClipLoss.forward: the two modalities *)

Section Symmetry.
Context {T : Type} `{AnalyticT : Analytic T}.
Variable rt : Runtime T.

Lemma get_logits_swapped (s : ClipLoss) (a b : Tensor T) (logit_scale : option T)
    (la lb : Tensor T) :
  (world_size s <= 1)%Z ->
  get_logits rt s a b logit_scale = Ok (la, lb) ->
  get_logits rt s b a logit_scale = Ok (lb, la) /\ device a = device b.
Proof.
  intros Hw. unfold get_logits.
  destruct (Z.ltb_spec 1 (world_size s)); [lia|].
  destruct logit_scale as [c|]; [| discriminate]. simpl.
  destruct (matmul _ (transpose b)) as [x|] eqn:Ex; [| discriminate]. simpl.
  destruct (matmul _ (transpose a)) as [y|] eqn:Ey; [| discriminate]. simpl.
  intros [= <- <-]. split; [reflexivity|].
  now apply matmul_Ok in Ex as (Hd & _).
Qed.

Lemma cross_entropy_rows (input : Tensor T) (target : list Z) (v : T) :
  cross_entropy default_ignore_index input target = Ok v ->
  shape0 input = length target.
Proof.
  unfold cross_entropy.
  destruct (Nat.eqb_spec (shape0 input) (length target)); [auto | discriminate].
Qed.

Lemma forward_swapped (a b : Tensor T) (logit_scale : option T)
    (output_dict : bool) (st st' : State) (out : Output T) :
  (forall x y : T, add x y = add y x) ->
  (world_size (self st) <= 1)%Z ->
  ClipLoss_forward rt (Some a) (Some b) logit_scale None None output_dict st
    = (Ok out, st') ->
  ClipLoss_forward rt (Some b) (Some a) logit_scale None None output_dict st
    = (Ok out, st').
Proof.
  intros Hcomm Hw Hfwd.
  apply (forward_returned_mean rt st st' _ _ _ _ _ _ a b) in Hfwd
    as (la & lb & labels & ca & cb & Hlog & Hlab & Ha & Hb & ->);
    [| left; now split].
  destruct (get_logits_swapped _ _ _ _ _ _ Hw Hlog) as [Hlog' Hdev].
  unfold mean2. rewrite Hcomm.
  apply (forward_returns_mean rt st st' _ _ _ _ _ _ b a lb la labels cb ca);
    try assumption.
  - left. now split.
  - rewrite <- Hdev, (cross_entropy_rows _ _ _ Hb), <- (cross_entropy_rows _ _ _ Ha).
    exact Hlab.
Qed.
End Symmetry.

(** In a single process the loss is symmetric in the two modalities: if
    [forward] returns on [(a, b)] it returns the same, with the same effect
    on the object, on [(b, a)] (addition being commutative, as it is for
    floats too). *)
Theorem forward_symmetric {T : Type} `{AnalyticT : Analytic T} (rt : Runtime T)
    (a b : Tensor T) (logit_scale : option T) (output_dict : bool)
    (st st' : State) (out : Output T) :
  (forall x y : T, add x y = add y x) ->
  (world_size (self st) <= 1)%Z ->
  ClipLoss_forward rt (Some a) (Some b) logit_scale None None output_dict st
    = (Ok out, st') ->
  ClipLoss_forward rt (Some b) (Some a) logit_scale None None output_dict st
    = (Ok out, st').
Proof. apply forward_swapped. Qed.

Lemma forward_symmetric_witness :
  let st := fresh (ClipLoss_init false false false 0 1 false) 0 in
  let a := mkTensor "cpu" 1 1 [[1%R]] in
  let b := mkTensor "cpu" 1 1 [[2%R]] in
  let rt := sim_runtime true true alone in
  exists out st',
    ClipLoss_forward rt (Some a) (Some b) (Some 1%R) None None false st
      = (Ok out, st') /\
    ClipLoss_forward rt (Some b) (Some a) (Some 1%R) None None false st
      = (Ok out, st').
Proof.
  intros st a b rt.
  assert (exists out st',
            ClipLoss_forward rt (Some a) (Some b) (Some 1%R) None None false st
            = (Ok out, st')) as (out & st' & H).
  { do 2 eexists.
    lazy -[exp ln Rplus Rmult Rdiv Ropp Rinv INR IZR]. reflexivity. }
  exists out, st'. split; [exact H|].
  apply (forward_symmetric rt a b (Some 1%R) false st st' out); [| | exact H].
  - intros x y. simpl. apply Rplus_comm.
  - simpl. lia.
Defined.

(** ** DistillClipLoss.dist_loss: the teacher's entropy is a lower bound *)

Section Gibbs.
Local Open Scope R_scope.
Implicit Types (x y p q : list R) (rs : list (list R)) (t s : Tensor R).

Lemma ln_le_minus_1 (z : R) : 0 < z -> ln z <= z - 1.
Proof.
  intros Hz. pose proof (exp_ineq1_le (ln z)) as H.
  rewrite exp_ln in H by exact Hz. lra.
Qed.

Lemma ln_eq_minus_1 (z : R) : 0 < z -> ln z = z - 1 -> z = 1.
Proof.
  intros Hz Heq. destruct (Req_dec z 1) as [-> | Hne]; [reflexivity|].
  pose proof (exp_ineq1 (ln z) (ln_neq_0 z Hne Hz)) as H.
  rewrite exp_ln in H by exact Hz. lra.
Qed.

(** One class: [a * ln b - a * ln a <= b - a], with equality only for
    [a = b]. *)
Lemma gibbs_term (a b : R) :
  0 < a -> 0 < b ->
  a * ln b - a * ln a <= b - a /\ (a * ln b - a * ln a = b - a -> a = b).
Proof.
  intros Ha Hb.
  assert (0 < b / a) as Hq by (now apply Rdiv_lt_0_compat).
  assert (a * ln b - a * ln a = a * ln (b / a)) as ->
    by (unfold Rdiv; rewrite ln_mult, ln_Rinv;
        [lra | assumption | assumption | now apply Rinv_0_lt_compat]).
  assert (b - a = a * (b / a - 1)) as -> by (field; lra).
  split.
  - apply Rmult_le_compat_l; [lra | now apply ln_le_minus_1].
  - intros Heq. apply Rmult_eq_reg_l in Heq; [| lra].
    apply ln_eq_minus_1 in Heq; [| exact Hq].
    apply (Rmult_eq_compat_r a) in Heq. unfold Rdiv in Heq.
    rewrite Rmult_assoc, Rinv_l in Heq; lra.
Qed.

Lemma gibbs_gap p : forall q,
  length p = length q ->
  Forall (fun v => 0 < v) p -> Forall (fun v => 0 < v) q ->
  let gap := (sumR q - sumR p)
             - (sumR (zip_with Rmult p (map ln q))
                - sumR (map (fun v => v * ln v) p)) in
  0 <= gap /\ (gap = 0 -> p = q).
Proof.
  induction p as [| a p IH]; intros [| b q] Hlen Hp Hq; try discriminate.
  - simpl. split; [lra | reflexivity].
  - apply Forall_cons in Hp as [Ha Hp]. apply Forall_cons in Hq as [Hb Hq].
    injection Hlen as Hlen.
    destruct (IH q Hlen Hp Hq) as [Hgap Heq].
    destruct (gibbs_term a b Ha Hb) as [Hterm Hteq].
    cbv zeta in *. simpl. split; [lra|].
    intros Hz. f_equal; [apply Hteq | apply Heq]; lra.
Qed.

(** One row: the soft cross-entropy is at least the teacher's entropy, and
    equal to it only if the two softmaxes agree. *)
Lemma soft_cross_entropy_gibbs x y :
  length x = length y ->
  entropy (softmax x) <= soft_cross_entropy x y /\
  (soft_cross_entropy x y = entropy (softmax x) -> softmax x = softmax y).
Proof.
  intros Hlen. destruct x as [| u x].
  - destruct y; [| discriminate]. unfold soft_cross_entropy, entropy. simpl.
    split; [lra | reflexivity].
  - assert (y <> []) as Hy by (intros ->; discriminate).
    destruct (gibbs_gap (softmax (u :: x)) (softmax y)) as [Hgap Heq].
    + now rewrite !length_softmax.
    + apply softmax_pos.
    + apply softmax_pos.
    + rewrite !softmax_sum in Hgap, Heq by (assumption || discriminate).
      unfold soft_cross_entropy, entropy, log_softmax.
      change (@log_ R _ _) with ln.
      split; [lra|]. intros Hz. apply Heq. lra.
Qed.

Lemma soft_cross_entropy_same_softmax x y :
  softmax x = softmax y -> soft_cross_entropy x y = entropy (softmax x).
Proof.
  intros Heq. rewrite <- soft_cross_entropy_self.
  unfold soft_cross_entropy, log_softmax. now rewrite Heq.
Qed.

Lemma sum_gibbs rs1 rs2 :
  Forall2 (fun x y => length x = length y) rs1 rs2 ->
  sumR (map (fun r => entropy (softmax r)) rs1)
    <= sumR (zip_with soft_cross_entropy rs1 rs2) /\
  (sumR (zip_with soft_cross_entropy rs1 rs2)
     = sumR (map (fun r => entropy (softmax r)) rs1) ->
   map softmax rs1 = map softmax rs2).
Proof.
  induction 1 as [| x y rs1 rs2 Hxy _ [IHle IHeq]]; simpl.
  - split; [lra | reflexivity].
  - destruct (soft_cross_entropy_gibbs x y Hxy) as [Hle Heq].
    split; [lra|]. intros Hz. f_equal; [apply Heq | apply IHeq]; lra.
Qed.

Lemma zip_same_softmax rs1 : forall rs2,
  map softmax rs1 = map softmax rs2 ->
  zip_with soft_cross_entropy rs1 rs2 = map (fun r => entropy (softmax r)) rs1.
Proof.
  induction rs1 as [| x rs1 IH]; intros [| y rs2] Heq; try discriminate;
    [reflexivity|].
  simpl in *. injection Heq as Hxy Heq.
  now rewrite (soft_cross_entropy_same_softmax x y Hxy), IH.
Qed.

Lemma rows_pairwise t s :
  wf t -> wf s -> shape0 t = shape0 s -> shape1 t = shape1 s ->
  Forall2 (fun x y => length x = length y) (rows t) (rows s).
Proof.
  intros [Htn Htd] [Hsn Hsd] H0 H1.
  apply Forall2_same_length_lookup_2; [congruence|].
  intros i x y Hx Hy.
  rewrite (proj1 (Forall_lookup _ _) Htd i x Hx).
  rewrite (proj1 (Forall_lookup _ _) Hsd i y Hy). exact H1.
Qed.

Lemma dist_loss_gibbs t s :
  wf t -> wf s -> device t = device s ->
  shape0 t = shape0 s -> shape1 t = shape1 s ->
  exists v h,
    dist_loss t s = Ok v /\ dist_loss t t = Ok h /\ h <= v /\
    (v = h <-> map softmax (rows t) = map softmax (rows s)).
Proof.
  intros Hwt Hws Hd H0 H1.
  pose proof (rows_pairwise t s Hwt Hws H0 H1) as Hrows.
  destruct (sum_gibbs _ _ Hrows) as [Hle Heq].
  exists (meanR (zip_with soft_cross_entropy (rows t) (rows s))),
         (meanR (map (fun r => entropy (softmax r)) (rows t))).
  split; [now apply dist_loss_rows|].
  split.
  { rewrite dist_loss_rows by reflexivity. now rewrite zip_with_diag,
      (map_ext _ _ soft_cross_entropy_self). }
  assert (length (zip_with soft_cross_entropy (rows t) (rows s))
          = length (rows t)) as Hlz.
  { rewrite length_zip_with. apply Forall2_length in Hrows. lia. }
  unfold meanR. rewrite Hlz, length_map.
  destruct (rows t) as [| r rs] eqn:Hr.
  - apply Forall2_nil_inv_l in Hrows. rewrite Hrows. simpl.
    split; [lra|]. split; reflexivity.
  - assert (0 < / INR (length (r :: rs))) as Hn.
    { apply Rinv_0_lt_compat, lt_0_INR. simpl. lia. }
    unfold Rdiv. split; [nra|]. split.
    + intros Hz. apply Heq. apply Rmult_eq_reg_r in Hz; lra.
    + intros Hs. now rewrite (zip_same_softmax _ _ Hs).
Qed.
End Gibbs.

(** Over the reals, for teacher and student logits of one shape on one
    device: [dist_loss(teacher, student)] is never below
    [dist_loss(teacher, teacher)], and equals it exactly when the student's
    softmax rows are the teacher's. *)
Theorem dist_loss_least_at_teacher (t s : Tensor R) :
  wf t -> wf s -> device t = device s ->
  shape0 t = shape0 s -> shape1 t = shape1 s ->
  exists v h,
    dist_loss t s = Ok v /\ dist_loss t t = Ok h /\ (h <= v)%R /\
    (v = h <-> map softmax (rows t) = map softmax (rows s)).
Proof. apply dist_loss_gibbs. Qed.

Lemma dist_loss_least_at_teacher_witness :
  let t := mkTensor "cpu" 1 2 [[0; 0]]%R in
  let s := mkTensor "cpu" 1 2 [[1; 2]]%R in
  wf t /\ wf s /\
  exists v h, dist_loss t s = Ok v /\ dist_loss t t = Ok h /\ (h <= v)%R.
Proof.
  intros t s.
  assert (wf t) as Hwt by (repeat constructor).
  assert (wf s) as Hws by (repeat constructor).
  split; [exact Hwt|]. split; [exact Hws|].
  destruct (dist_loss_least_at_teacher t s Hwt Hws eq_refl eq_refl eq_refl)
    as (v & h & Hv & Hh & Hle & _).
  exists v, h. repeat split; assumption.
Defined.

(** ** ClipLoss.forward in a process group *)

Section LabelRange.
Context {T : Type} `{AnalyticT : Analytic T}.

Lemma seq_offset (n : nat) : forall start k,
  map (fun v => (v + Z.of_nat k)%Z) (map Z.of_nat (seq start n))
  = map Z.of_nat (seq (start + k) n).
Proof.
  induction n as [| n IH]; intros start k; simpl; [reflexivity|].
  f_equal; [lia|]. exact (IH (S start) k).
Qed.

(** Labels [start .. start + n) are in range for [n] rows of at least
    [start + n] classes. *)
Lemma cross_entropy_in_range (t : Tensor T) (n m start : nat) :
  shape0 t = n -> wf_rows n m (rows t) -> start + n <= m ->
  exists v, cross_entropy default_ignore_index t (map Z.of_nat (seq start n)) = Ok v.
Proof.
  intros H0 [Hn Hm] Hle. unfold cross_entropy, nll_mean.
  rewrite H0, length_map, length_seq, Nat.eqb_refl.
  destruct (nll_terms_in_range default_ignore_index
              (zip (rows t) (map Z.of_nat (seq start n)))) as [ts Hts].
  { rewrite <- Hn. apply (zip_in_range m); [exact Hm | lia]. }
  rewrite Hts. simpl. eauto.
Qed.
End LabelRange.

Section GroupForward.
Context {T : Type} `{AnalyticT : Analytic T}.
Variable rt : Runtime T.
Variables world_a world_b : list (Tensor T).
Variable dev : Device.
Variables b d : nat.
Variables features_a features_b : Tensor T.
Variable c : T.
Variable s : ClipLoss.

Hypothesis Hdist : has_distributed rt = true.
Hypothesis Hhvd : use_horovod s = true -> hvd rt <> None.
Hypothesis Hlen : length world_b = length world_a.
Hypothesis Hwa : same_shape dev b d world_a.
Hypothesis Hwb : same_shape dev b d world_b.
Hypothesis Hws : world_size s = Z.of_nat (length world_a).
Hypothesis Hmulti : (1 < world_size s)%Z.
Hypothesis Hrank : (0 <= rank s < world_size s)%Z.
Hypothesis Hxa : world_a !! Z.to_nat (rank s) = Some features_a.
Hypothesis Hxb : world_b !! Z.to_nat (rank s) = Some features_b.
Hypothesis Hoa : rank_ordered rt features_a world_a.
Hypothesis Hob : rank_ordered rt features_b world_b.
Hypothesis Hempty : labels s = ∅.
Hypothesis Hsize : local_loss s = true -> (Z.of_nat (length world_a * b) < 2 ^ 63)%Z.

(** The labels a fresh object computes in the group: the row numbers,
    shifted to the worker's block under local loss. *)
Lemma group_labels (n : nat) :
  n = (if local_loss s then b else length world_a * b) ->
  labels_fit s n = true /\
  computed_values s n
  = map Z.of_nat (seq (if local_loss s then n * Z.to_nat (rank s) else 0) n).
Proof.
  intros Hn. destruct (local_loss s) eqn:Hll.
  - assert (Z.of_nat n * (rank s + 1) <= 2 ^ 63)%Z as Hroom
      by (specialize (Hsize eq_refl); nia).
    split.
    + unfold labels_fit. apply orb_true_iff. right. apply int64_fits_spec. nia.
    + rewrite computed_values_exact by (lia || exact Hroom).
      unfold offsets. rewrite Hll.
      destruct (Z.ltb_spec 1 (world_size s)); [| lia]. simpl.
      replace (Z.of_nat n * rank s)%Z with (Z.of_nat (n * Z.to_nat (rank s)))
        by lia.
      now rewrite seq_offset.
  - split; [now apply labels_fit_global|].
    unfold computed_values, offsets. now rewrite Hll, andb_false_r.
Qed.

Lemma forward_in_group (k : nat) (output_dict : bool) :
  exists loss st',
    ClipLoss_forward rt (Some features_a) (Some features_b) (Some c) None None
                     output_dict (mkState s k)
      = (Ok (returned output_dict loss), st').
Proof.
  destruct (group_logits_shapes rt world_a world_b dev b d features_a features_b c s)
    as (la & lb & Hlog & Hwla & Hwlb & _ & _ & Hla0 & Hlb0 & Hla1 & Hlb1);
    try assumption.
  destruct (group_labels (shape0 la) Hla0) as [Hfits Hvals].
  destruct (get_ground_truth_miss (mkState s k) (device features_a) (shape0 la))
    as (l & st' & Hget & Hv & _);
    [right; simpl; now rewrite Hempty | exact Hfits |].
  simpl in Hv. rewrite Hvals in Hv.
  assert (Z.to_nat (rank s) < length world_a) as Hr by lia.
  set (start := if local_loss s then shape0 la * Z.to_nat (rank s) else 0) in *.
  assert (start + shape0 la <= length world_a * b) as Hfit.
  { unfold start. rewrite Hla0. destruct (local_loss s); nia. }
  destruct (cross_entropy_in_range la (shape0 la) (length world_a * b) start
              eq_refl) as [ca Hca]; [| exact Hfit |].
  { unfold wf in Hwla. now rewrite Hla1 in Hwla. }
  assert (shape0 lb = shape0 la) as Hsame by congruence.
  destruct (cross_entropy_in_range lb (shape0 la) (length world_a * b) start
              Hsame) as [cb Hcb]; [| exact Hfit |].
  { unfold wf in Hwlb. now rewrite Hlb1, Hsame in Hwlb. }
  exists (mean2 ca cb), st'.
  apply (forward_returns_mean rt (mkState s k) st' _ _ _ _ _ _
           features_a features_b la lb l ca cb).
  - left. now split.
  - exact Hlog.
  - exact Hget.
  - now rewrite Hv.
  - now rewrite Hv.
Qed.
End GroupForward.

(** In a rank-ordered group of equal-shape batches, a freshly constructed
    object with [0 <= rank < world_size] returns a loss from [forward]
    under every gathering strategy: the labels are in range for both logit
    matrices, also under local loss, where they are shifted by
    [rank * batch] (the gathered batch being a tensor, its row count is an
    [int64], so that the shift is a [long] scalar). *)
Theorem forward_returns_in_group {T : Type} `{AnalyticT : Analytic T}
    (rt : Runtime T) (world_a world_b : list (Tensor T)) (dev : Device)
    (b d : nat) (features_a features_b : Tensor T) (c : T) (s : ClipLoss)
    (k : nat) (output_dict : bool) :
  has_distributed rt = true ->
  (use_horovod s = true -> hvd rt <> None) ->
  length world_b = length world_a ->
  same_shape dev b d world_a -> same_shape dev b d world_b ->
  world_size s = Z.of_nat (length world_a) ->
  (1 < world_size s)%Z ->
  (0 <= rank s < world_size s)%Z ->
  world_a !! Z.to_nat (rank s) = Some features_a ->
  world_b !! Z.to_nat (rank s) = Some features_b ->
  rank_ordered rt features_a world_a ->
  rank_ordered rt features_b world_b ->
  labels s = ∅ ->
  (local_loss s = true -> (Z.of_nat (length world_a * b) < 2 ^ 63)%Z) ->
  exists loss st',
    ClipLoss_forward rt (Some features_a) (Some features_b) (Some c) None None
                     output_dict (mkState s k)
      = (Ok (returned output_dict loss), st').
Proof.
  intros. now apply (forward_in_group rt world_a world_b dev b d).
Qed.

Lemma forward_returns_in_group_witness :
  let fa := mkTensor "cuda:0" 1 2 [[1; 2]]%R in
  let fb := mkTensor "cuda:0" 1 2 [[5; 6]]%R in
  let s := ClipLoss_init true false true 1 2 true in
  let rt := sim_runtime true true (fun x : Tensor R => [x; x]) in
  exists loss st',
    ClipLoss_forward rt (Some fa) (Some fb) (Some 2%R) None None false (mkState s 0)
      = (Ok (Scalar loss), st').
Proof.
  intros fa fb s rt.
  apply (forward_returns_in_group rt [fa; fa] [fb; fb] "cuda:0" 1 2 fa fb 2%R s 0 false);
    first [ reflexivity
          | discriminate
          | exact (sim_runtime_rank_ordered true true (fun x : Tensor R => [x; x]) _)
          | solve [repeat constructor]
          | simpl; lia ].
Defined.

(** ** The forward methods without a logit scale *)

Section NoLogitScale.
Context {T : Type} `{AnalyticT : Analytic T}.
Variable rt : Runtime T.

(** [None * features] is a [TypeError]: [get_logits] cannot return. *)
Lemma get_logits_without_scale (s : ClipLoss) (a b : Tensor T) :
  (exists e, get_logits rt s a b None = Raise e) /\
  ((world_size s <= 1)%Z -> get_logits rt s a b None = Raise TypeError).
Proof.
  unfold get_logits. destruct (Z.ltb_spec 1 (world_size s)).
  - split; [| lia].
    destruct (gather_features rt a b _ _ _ _ _) as [[ta tb]|e]; simpl; [| eauto].
    destruct (local_loss s); simpl; eauto.
  - simpl. split; [eauto | reflexivity].
Qed.

Lemma forward_without_scale (a b : Tensor T) (output_dict : bool) (st : State) :
  (exists e, ClipLoss_forward rt (Some a) (Some b) None None None output_dict st
             = (Raise e, st)) /\
  ((world_size (self st) <= 1)%Z ->
   ClipLoss_forward rt (Some a) (Some b) None None None output_dict st
   = (Raise TypeError, st)).
Proof.
  destruct (get_logits_without_scale (self st) a b) as [[e He] Hsingle].
  unfold ClipLoss_forward, cbind, lift, reading, read_local. simpl.
  split.
  - exists e. now rewrite He.
  - intros Hw. now rewrite (Hsingle Hw).
Qed.
End NoLogitScale.

(** [logit_scale] defaults to [None] in [ClipLoss.forward], but a call
    that leaves it so never returns a loss: it raises with the object
    unchanged, and in a single process what it raises is the [TypeError] of
    [None * features]. *)
Theorem forward_needs_logit_scale {T : Type} `{AnalyticT : Analytic T}
    (rt : Runtime T) (a b : Tensor T) (output_dict : bool) (st : State) :
  (exists e, ClipLoss_forward rt (Some a) (Some b) None None None output_dict st
             = (Raise e, st)) /\
  ((world_size (self st) <= 1)%Z ->
   ClipLoss_forward rt (Some a) (Some b) None None None output_dict st
   = (Raise TypeError, st)).
Proof. apply forward_without_scale. Qed.

Lemma forward_needs_logit_scale_witness :
  let st := fresh (ClipLoss_init false false true 0 1 false) 0 in
  let x := mkTensor "cpu" 1 1 [[1%R]] in
  ClipLoss_forward (sim_runtime true true alone) (Some x) (Some x) None None None
                   false st
  = (Raise TypeError, st).
Proof.
  intros st x.
  apply (proj2 (forward_needs_logit_scale (sim_runtime true true alone) x x false st)).
  simpl. lia.
Defined.

(** ** CoCaLoss.forward: a batch of padding only *)

Section AllPadding.
Context {T : Type} `{AnalyticT : Analytic T}.
Implicit Types (pad : Z) (items : list (list T * Z)).

Lemma nll_terms_all_ignored pad items :
  Forall (fun it => snd it = pad) items -> nll_terms pad items = Ok [].
Proof.
  induction 1 as [| [x y] items Hy _ IH]; [reflexivity|].
  simpl in *. subst y. now rewrite Z.eqb_refl.
Qed.

Lemma zip_targets {A : Type} (P : Z -> Prop) (tgt : list Z) : forall (p : list A),
  Forall P tgt -> Forall (fun it => P (snd it)) (zip p tgt).
Proof.
  induction tgt as [| y tgt IH]; intros [| x p] Ht; simpl; try constructor.
  - now apply Forall_cons in Ht as [? _].
  - apply IH. now apply Forall_cons in Ht as [_ ?].
Qed.

Lemma planes_targets {A B : Type} (P : Z -> Prop) (f : B -> list A)
    (lr : list (list Z)) : forall (ps : list B),
  Forall (Forall P) lr ->
  Forall (fun it => P (snd it))
         (concat (zip_with (fun plane tgt => zip (f plane) tgt) ps lr)).
Proof.
  induction lr as [| tgt lr IH]; intros [| p ps] Hlr; simpl; try constructor.
  apply Forall_cons in Hlr as [Ht Hlr].
  apply Forall_app. split; [now apply zip_targets | now apply IH].
Qed.

(** Every target ignored: the mean is taken over no position at all. *)
Lemma cross_entropy_seq_all_ignored pad (logits : Tensor3 T) (labels : LongTensor2) :
  shape3_0 logits = lshape0 labels -> shape3_1 logits = lshape1 labels ->
  Forall (Forall (fun y => y = pad)) (lrows labels) ->
  cross_entropy_seq pad (permute_021 logits) labels
  = Ok (divide zero (of_nat 0)).
Proof.
  intros H0 H1 Hpad. unfold cross_entropy_seq, nll_mean. simpl.
  rewrite H0, H1, !Nat.eqb_refl. simpl.
  rewrite nll_terms_all_ignored; [reflexivity|].
  now apply (planes_targets (fun y => y = pad)).
Qed.
End AllPadding.

(** When every token label is the pad id, the caption loss
    [CoCaLoss.forward] returns does not depend on the token logits: it is
    the mean over no position, [0 / 0] (a NaN in floating point), times
    [caption_loss_weight]. *)
Theorem caption_loss_all_padding {T : Type} `{AnalyticT : Analytic T}
    (rt : Runtime T) (this : @CoCaLoss T)
    (image_features text_features : option (Tensor T))
    (logits : Tensor3 T) (labels : LongTensor2) (logit_scale : option T)
    (st st' : State) (contrastive : T) :
  shape3_0 logits = lshape0 labels -> shape3_1 logits = lshape1 labels ->
  Forall (Forall (fun y => y = caption_loss this)) (lrows labels) ->
  ClipLoss_forward rt image_features text_features logit_scale None None false st
    = (Ok (Scalar contrastive), st') ->
  CoCaLoss_forward rt this image_features text_features logits labels
                   logit_scale false st
  = (Ok (Pair (mul (clip_loss_weight this) contrastive)
              (mul (divide zero (of_nat 0)) (caption_loss_weight this))), st').
Proof.
  intros H0 H1 Hpad Hclip. unfold CoCaLoss_forward, cbind, lift, cret.
  rewrite Hclip. simpl.
  now rewrite (cross_entropy_seq_all_ignored _ _ _ H0 H1 Hpad).
Qed.

Lemma caption_loss_all_padding_witness :
  let this := mkCoCaLoss 1%R 2%R 0%Z in
  let st := fresh (ClipLoss_init false false false 0 1 false) 0 in
  let x := mkTensor "cpu" 1 1 [[1%R]] in
  let labels := mkLong2 1 2 [[0; 0]]%Z in
  let logits := mkTensor3 1 2 2 [[[1; 2]; [3; 4]]]%R in
  exists contrastive st',
    CoCaLoss_forward (sim_runtime true false alone) this (Some x) (Some x)
                     logits labels (Some 1%R) false st
    = (Ok (Pair (mul 1%R contrastive) (mul (divide 0%R (INR 0)) 2%R)), st').
Proof.
  intros this st x labels logits.
  assert (exists contrastive st',
            ClipLoss_forward (sim_runtime true false alone) (Some x) (Some x)
                             (Some 1%R) None None false st
            = (Ok (Scalar contrastive), st')) as (c & st' & H).
  { do 2 eexists.
    lazy -[exp ln Rplus Rmult Rdiv Ropp Rinv INR IZR]. reflexivity. }
  exists c, st'.
  assert (Forall (Forall (fun y => y = caption_loss this)) (lrows labels)) as Hpad
    by (repeat constructor).
  exact (caption_loss_all_padding (sim_runtime true false alone) this
           (Some x) (Some x) logits labels (Some 1%R) st st' c
           eq_refl eq_refl Hpad H).
Defined.

(** ** ClipLoss.forward under global loss: one value for the whole group *)

Section SameOnEveryRank.
Context {T : Type} `{AnalyticT : Analytic T}.
Variables world_a world_b : list (Tensor T).
Variable dev : Device.
Variables b d : nat.
Variable c : T.
Variable s : ClipLoss.

Hypothesis Hlen : length world_b = length world_a.
Hypothesis Hwa : same_shape dev b d world_a.
Hypothesis Hwb : same_shape dev b d world_b.
Hypothesis Hws : world_size s = Z.of_nat (length world_a).
Hypothesis Hmulti : (1 < world_size s)%Z.
Hypothesis Hglobal : local_loss s = false.
Hypothesis Hempty : labels s = ∅.

(** What one worker of the group returns under global loss is computed
    from the group's batches alone. *)
Lemma global_forward_of_group (rt : Runtime T) (features_a features_b : Tensor T)
    (r : Z) (k : nat) (output_dict : bool) (ta tb ga : Tensor T) (ca cb : T) :
  has_distributed rt = true ->
  (use_horovod s = true -> hvd rt <> None) ->
  (0 <= r < world_size s)%Z ->
  world_a !! Z.to_nat r = Some features_a ->
  world_b !! Z.to_nat r = Some features_b ->
  rank_ordered rt features_a world_a ->
  rank_ordered rt features_b world_b ->
  cat world_a = Ok ta -> cat world_b = Ok tb ->
  similarity c ta tb = Ok ga ->
  cross_entropy default_ignore_index ga (map Z.of_nat (seq 0 (shape0 ga))) = Ok ca ->
  cross_entropy default_ignore_index (transpose ga)
                (map Z.of_nat (seq 0 (shape0 ga))) = Ok cb ->
  exists st',
    ClipLoss_forward rt (Some features_a) (Some features_b) (Some c) None None
                     output_dict (mkState (with_rank s r) k)
      = (Ok (returned output_dict (mean2 ca cb)), st').
Proof.
  intros Hdist Hhvd Hr Hxa Hxb Hoa Hob Hta Htb Hga Hca Hcb.
  destruct (get_logits_in_group rt world_a world_b dev b d features_a features_b c
              (with_rank s r)) as (ta' & tb' & Hta' & Htb' & Hget); try assumption.
  rewrite Hta in Hta'. injection Hta' as <-.
  rewrite Htb in Htb'. injection Htb' as <-.
  specialize (Hget false).
  assert (with_local_loss (with_rank s r) (local_loss s) = with_rank s r) as Hs
    by reflexivity.
  rewrite Hglobal in Hs. rewrite Hs, Hga in Hget. simpl in Hget.
  destruct (get_ground_truth_miss (mkState (with_rank s r) k) (device features_a)
              (shape0 ga)) as (l & st' & Hgt & Hv & _);
    [right; simpl; now rewrite Hempty | now apply labels_fit_global |].
  assert (values l = map Z.of_nat (seq 0 (shape0 ga))) as Hvals.
  { rewrite Hv. unfold computed_values, offsets. simpl.
    now rewrite Hglobal, andb_false_r. }
  exists st'.
  apply (forward_returns_mean rt (mkState (with_rank s r) k) st' _ _ _ _ _ _
           features_a features_b ga (transpose ga) l ca cb).
  - left. now split.
  - exact Hget.
  - exact Hgt.
  - now rewrite Hvals.
  - now rewrite Hvals.
Qed.

Lemma global_loss_of_group :
  exists loss,
    forall (rt : Runtime T) (features_a features_b : Tensor T) (r : Z) (k : nat)
           (output_dict : bool),
      has_distributed rt = true ->
      (use_horovod s = true -> hvd rt <> None) ->
      (0 <= r < world_size s)%Z ->
      world_a !! Z.to_nat r = Some features_a ->
      world_b !! Z.to_nat r = Some features_b ->
      rank_ordered rt features_a world_a ->
      rank_ordered rt features_b world_b ->
      exists st',
        ClipLoss_forward rt (Some features_a) (Some features_b) (Some c) None None
                         output_dict (mkState (with_rank s r) k)
          = (Ok (returned output_dict loss), st').
Proof.
  assert (world_a <> []) as Hne by (intros E; rewrite E in Hws; simpl in Hws; lia).
  assert (world_b <> []) as Hneb
    by (intros E; rewrite E in Hlen; simpl in Hlen; destruct world_a; [congruence | discriminate]).
  destruct (cat_same_shape dev b d world_a Hwa Hne) as (ta & Hta & _).
  destruct (cat_same_shape dev b d world_b Hwb Hneb) as (tb & Htb & _).
  destruct (wf_cat dev b d world_a ta Hwa Hta) as (Hwta & Hva & Ha0 & Ha1 & _).
  destruct (wf_cat dev b d world_b tb Hwb Htb) as (Hwtb & Hvb & Hb0 & Hb1 & _).
  rewrite Hlen in Hb0.
  destruct (similarity_shape c ta tb (length world_a * b) (length world_a * b))
    as (ga & Hga & Hwga & Hga0 & Hga1 & _); try congruence.
  destruct (cross_entropy_in_range ga (shape0 ga) (length world_a * b) 0 eq_refl)
    as [ca Hca]; [| lia |].
  { unfold wf in Hwga. now rewrite Hga1 in Hwga. }
  assert (wf (transpose ga)) as Hwt by (apply wf_transpose; now destruct Hwga).
  destruct (cross_entropy_in_range (transpose ga) (shape0 ga) (length world_a * b) 0)
    as [cb Hcb]; [| | lia |].
  { simpl. congruence. }
  { change (wf_rows (shape1 ga) (shape0 ga) (rows (transpose ga))) in Hwt.
    rewrite Hga0. now rewrite Hga1, Hga0 in Hwt. }
  exists (mean2 ca cb).
  intros rt fa fb r k od Hdist Hhvd Hr Hxa Hxb Hoa Hob.
  now apply (global_forward_of_group rt fa fb r k od ta tb ga ca cb).
Qed.
End SameOnEveryRank.

(** Under global loss every worker of a rank-ordered group computes the
    same loss: there is one value that [forward] returns on every rank,
    from that rank's own batches, whatever the gathering strategy. *)
Theorem global_loss_same_on_every_rank {T : Type} `{AnalyticT : Analytic T}
    (world_a world_b : list (Tensor T)) (dev : Device) (b d : nat) (c : T)
    (s : ClipLoss) :
  length world_b = length world_a ->
  same_shape dev b d world_a -> same_shape dev b d world_b ->
  world_size s = Z.of_nat (length world_a) ->
  (1 < world_size s)%Z ->
  local_loss s = false ->
  labels s = ∅ ->
  exists loss,
    forall (rt : Runtime T) (features_a features_b : Tensor T) (r : Z) (k : nat)
           (output_dict : bool),
      has_distributed rt = true ->
      (use_horovod s = true -> hvd rt <> None) ->
      (0 <= r < world_size s)%Z ->
      world_a !! Z.to_nat r = Some features_a ->
      world_b !! Z.to_nat r = Some features_b ->
      rank_ordered rt features_a world_a ->
      rank_ordered rt features_b world_b ->
      exists st',
        ClipLoss_forward rt (Some features_a) (Some features_b) (Some c) None None
                         output_dict (mkState (with_rank s r) k)
          = (Ok (returned output_dict loss), st').
Proof. apply global_loss_of_group. Qed.

Lemma global_loss_same_on_every_rank_witness :
  let x := mkTensor "cuda:0" 1 2 [[1; 2]]%R in
  let y := mkTensor "cuda:0" 1 2 [[5; 6]]%R in
  let s := ClipLoss_init false false false 0 2 false in
  let rt := sim_runtime true false (fun t : Tensor R => [t; t]) in
  exists loss st0 st1,
    ClipLoss_forward rt (Some x) (Some y) (Some 2%R) None None false
                     (mkState (with_rank s 0) 0) = (Ok (Scalar loss), st0) /\
    ClipLoss_forward rt (Some x) (Some y) (Some 2%R) None None false
                     (mkState (with_rank s 1) 7) = (Ok (Scalar loss), st1).
Proof.
  intros x y s rt.
  destruct (global_loss_same_on_every_rank [x; x] [y; y] "cuda:0" 1 2 2%R s)
    as [loss Hloss]; try first [reflexivity | solve [repeat constructor]].
  destruct (Hloss rt x y 0%Z 0 false) as [st0 H0];
    try first [ reflexivity | discriminate | simpl; lia
              | exact (sim_runtime_rank_ordered true false
                         (fun t : Tensor R => [t; t]) _) ].
  destruct (Hloss rt x y 1%Z 7 false) as [st1 H1];
    try first [ reflexivity | discriminate | simpl; lia
              | exact (sim_runtime_rank_ordered true false
                         (fun t : Tensor R => [t; t]) _) ].
  exists loss, st0, st1. split; [exact H0 | exact H1].
Defined.
